(** * Sentinel-1 water detection: speckle filter, dB conversion, classifier

    A shallow embedding of the array arithmetic of
    [notebooks/examples/03_Sentinel-1_WaterDetection.ipynb] (the function
    [lee_filter], the null-masking around it, the decibel conversion, the
    threshold classifier [S1_water_classifier] and the per-pixel summary over
    time), of the decibel conversion of the Sentinel-1 maximum-backscatter
    notebook, and of the order of the steps of every notebook.

    Numbers.  The notebooks compute on IEEE floating-point arrays.  The model
    keeps the special values of that arithmetic (NaN and the two infinities,
    with the results numpy gives for them: [0/0 = NaN], [x/0 = ±inf],
    [log10 0 = -inf], every comparison with NaN false) and takes the finite
    values to be exact real numbers: rounding is not modelled, and neither is
    the sign of zero.  The properties stated of the filter are therefore
    those that rounding does not touch: which pixels exist, how NaN and the
    infinities travel through the arithmetic, what a zero divisor or a zero
    weight gives, and the values on inputs whose sums binary64 computes
    exactly.

    Library functions.  [uniform_filter] and [variance] (scipy.ndimage),
    [np.isfinite], [np.isnan], [np.log10], [where], [mean] and [std] are
    library functions the notebooks call; they are written out here after
    their documented behaviour.  [threshold_minimum] (skimage) is kept as a
    parameter of the development. *)

From Stdlib Require Import Reals Lra Lia ZArith.
From stdpp Require Import base decidable option list gmap strings.

#[global] Instance Rlt_rel_dec : RelDecision Rlt := Rlt_dec.
#[global] Instance Req_rel_dec : RelDecision (@eq R) := Req_dec_T.

(** ** Numbers *)

(** The arithmetic the array code is generic in (a numpy dtype). *)
Class Arith (A : Type) : Type := {
  nzero : A;
  nadd : A → A → A;
  nsub : A → A → A;
  nmul : A → A → A;
  ndiv : A → A → A;
  nof_nat : nat → A
}.

(** Exact reals; used to state and prove the arithmetic facts about finite
    arrays. *)
#[global] Instance R_arith : Arith R := {
  nzero := 0%R;
  nadd := Rplus;
  nsub := Rminus;
  nmul := Rmult;
  ndiv := Rdiv;
  nof_nat := INR
}.

(** A floating-point value: a finite number, an infinity or NaN. *)
Inductive value : Type :=
  | Finite (r : R)
  | PosInf
  | NegInf
  | NaN.

(** [inf * r] for [pos = true], [-inf * r] for [pos = false]; also the
    result of [r / 0]. *)
Definition scale_inf (pos : bool) (r : R) : value :=
  if decide (r = 0%R) then NaN
  else if decide (0 < r)%R then (if pos then PosInf else NegInf)
  else (if pos then NegInf else PosInf).

Definition fneg (a : value) : value :=
  match a with
  | Finite x => Finite (- x)
  | PosInf => NegInf
  | NegInf => PosInf
  | NaN => NaN
  end.

Definition fadd (a b : value) : value :=
  match a, b with
  | NaN, _ | _, NaN => NaN
  | Finite x, Finite y => Finite (x + y)
  | PosInf, NegInf | NegInf, PosInf => NaN
  | PosInf, _ | _, PosInf => PosInf
  | NegInf, _ | _, NegInf => NegInf
  end.

Definition fsub (a b : value) : value := fadd a (fneg b).

Definition fmul (a b : value) : value :=
  match a, b with
  | NaN, _ | _, NaN => NaN
  | Finite x, Finite y => Finite (x * y)
  | PosInf, Finite y | Finite y, PosInf => scale_inf true y
  | NegInf, Finite y | Finite y, NegInf => scale_inf false y
  | PosInf, PosInf | NegInf, NegInf => PosInf
  | PosInf, NegInf | NegInf, PosInf => NegInf
  end.

(** Division never raises on arrays: a zero divisor gives NaN or an
    infinity (numpy only emits a RuntimeWarning). *)
Definition fdiv (a b : value) : value :=
  match a, b with
  | NaN, _ | _, NaN => NaN
  | Finite x, Finite y =>
      if decide (y = 0%R) then scale_inf true x else Finite (x / y)
  | Finite _, (PosInf | NegInf) => Finite 0
  | (PosInf | NegInf), (PosInf | NegInf) => NaN
  | PosInf, Finite y => if decide (y < 0)%R then NegInf else PosInf
  | NegInf, Finite y => if decide (y < 0)%R then PosInf else NegInf
  end.

(** [a < b] on floats: false as soon as one side is NaN. *)
Definition flt (a b : value) : bool :=
  match a, b with
  | NaN, _ | _, NaN => false
  | Finite x, Finite y => bool_decide (x < y)%R
  | _, NegInf => false
  | NegInf, _ => true
  | PosInf, _ => false
  | Finite _, PosInf => true
  end.

(** [np.isfinite] and [np.isnan]. *)
Definition isfinite (a : value) : bool :=
  match a with Finite _ => true | _ => false end.

Definition isnan (a : value) : bool :=
  match a with NaN => true | _ => false end.

(** [np.log10]. *)
Definition log10 (a : value) : value :=
  match a with
  | Finite x =>
      if decide (0 < x)%R then Finite (ln x / ln 10)
      else if decide (x = 0%R) then NegInf else NaN
  | PosInf => PosInf
  | NegInf | NaN => NaN
  end.

(** [np.sqrt]. *)
Definition fsqrt (a : value) : value :=
  match a with
  | Finite x => if decide (x < 0)%R then NaN else Finite (sqrt x)
  | PosInf => PosInf
  | NegInf | NaN => NaN
  end.

#[global] Instance value_arith : Arith value := {
  nzero := Finite 0;
  nadd := fadd;
  nsub := fsub;
  nmul := fmul;
  ndiv := fdiv;
  nof_nat := λ n, Finite (INR n)
}.

(** Python's [True = 1], [False = 0]. *)
Definition of_bool (b : bool) : value := Finite (if b then 1 else 0).

(** ** Arrays *)

(** A 2-D array is the list of its rows; a data cube is the list of its
    time slices. *)
Abbreviation array2 A := (list (list A)).
Abbreviation cube A := (list (list (list A))).

(** A function applied to every element. *)
Definition arr_map {A B : Type} (f : A → B) (a : array2 A) : array2 B :=
  (λ row : list A, f <$> row) <$> a.

Section Arrays.
Context {A : Type} `{Arith A}.

(** [img[i, j]]; the default is never reached on an index in range. *)
Definition pixel (img : array2 A) (i j : nat) : A :=
  default nzero (img !! i ≫= (.!! j)).

(** The sum of a list; exact addition, so the order of the additions is
    immaterial. *)
Definition nsum (l : list A) : A := foldr nadd nzero l.

(** Elementwise operations on arrays of one shape ([lee_filter] only
    combines arrays of the shape of its input), [a ** 2] and the broadcast
    of a scalar. *)
Definition arr_map2 (f : A → A → A) (a b : array2 A) : array2 A :=
  zip_with (zip_with f) a b.
Definition arr_add := arr_map2 nadd.
Definition arr_sub := arr_map2 nsub.
Definition arr_mul := arr_map2 nmul.
Definition arr_div := arr_map2 ndiv.
Definition arr_sq (a : array2 A) : array2 A :=
  arr_map (λ x : A, nmul x x) a.
Definition arr_add_scalar (a : array2 A) (c : A) : array2 A :=
  arr_map (λ x : A, nadd x c) a.

(** *** scipy.ndimage.uniform_filter, mode 'reflect', origin 0 *)

(** The index of the extended line [d c b a | a b c d | d c b a] that
    position [k] reads, for a line of [n] samples. *)
Definition reflect (n : nat) (k : Z) : nat :=
  let r := (k mod (2 * Z.of_nat n))%Z in
  Z.to_nat (if (r <? Z.of_nat n)%Z then r else 2 * Z.of_nat n - 1 - r)%Z.

(** The [size] positions averaged for output position [i]: from
    [i - size / 2] on. *)
Definition window (n size i : nat) : list nat :=
  (λ k, reflect n (Z.of_nat i - Z.of_nat (size / 2) + Z.of_nat k))
    <$> seq 0 size.

(** The mean of the samples at the positions [w].  scipy keeps a running sum
    along the line (adding the sample that enters the window, subtracting the
    one that leaves it); on exact numbers that is the sum of the window. *)
Definition window_mean (get : nat → A) (size : nat) (w : list nat) : A :=
  ndiv (nsum (get <$> w)) (nof_nat size).

(** The 1-D filter along axis 0 (down the columns), then along axis 1
    (along the rows). *)
Definition uniform_filter_axis0 (img : array2 A) (size : nat) : array2 A :=
  imap (λ i row,
    imap (λ j _,
      window_mean (λ k, pixel img k j) size (window (length img) size i))
      row) img.

Definition uniform_filter_axis1 (img : array2 A) (size : nat) : array2 A :=
  imap (λ i row,
    imap (λ j _,
      window_mean (λ k, pixel img i k) size (window (length row) size j))
      row) img.

(** Axes whose size is at most 1 are not filtered. *)
Definition uniform_filter (img : array2 A) (size : nat) : array2 A :=
  if decide (size ≤ 1) then img
  else uniform_filter_axis1 (uniform_filter_axis0 img size) size.

(** *** scipy.ndimage.variance: the population variance of all pixels *)
Definition variance (img : array2 A) : A :=
  let vals := concat img in
  let count := nof_nat (length vals) in
  let mean := ndiv (nsum vals) count in
  ndiv (nsum ((λ x : A, nmul (nsub x mean) (nsub x mean)) <$> vals)) count.

(** *** lee_filter

    [da.squeeze()] and the final [xr.DataArray(...)] only drop and restore
    the labels of the slice; the values are those of [img]. *)
Definition lee_filter (img : array2 A) (size : nat) : array2 A :=
  let img_mean := uniform_filter img size in
  let img_sqr_mean := uniform_filter (arr_sq img) size in
  let img_variance := arr_sub img_sqr_mean (arr_sq img_mean) in
  let overall_variance := variance img in
  let img_weights :=
    arr_div img_variance (arr_add_scalar img_variance overall_variance) in
  let img_output := arr_add img_mean (arr_mul img_weights (arr_sub img img_mean)) in
  img_output.

(** The divisor of the weights, as [lee_filter] forms it. *)
Definition lee_divisor (img : array2 A) (size : nat) : array2 A :=
  let img_mean := uniform_filter img size in
  let img_sqr_mean := uniform_filter (arr_sq img) size in
  let img_variance := arr_sub img_sqr_mean (arr_sq img_mean) in
  arr_add_scalar img_variance (variance img).

(** The same blend, pixel by pixel, in the words of the description:
    local mean, local variance, variance-ratio weight. *)
Definition lee_blend_pixel (img : array2 A) (size i j : nat) : A :=
  let local_mean := pixel (uniform_filter img size) i j in
  let local_sqr_mean := pixel (uniform_filter (arr_sq img) size) i j in
  let local_variance := nsub local_sqr_mean (nmul local_mean local_mean) in
  let w := ndiv local_variance (nadd local_variance (variance img)) in
  nadd local_mean (nmul w (nsub (pixel img i j) local_mean)).
End Arrays.

(** [img[i, j]] when the position exists. *)
Definition lookup2 {A : Type} (img : array2 A) (i j : nat) : option A :=
  img !! i ≫= (.!! j).

(** [c[t, i, j]] when the position exists. *)
Definition lookup3 {A : Type} (c : cube A) (t i j : nat) : option A :=
  c !! t ≫= λ img, lookup2 img i j.

Definition cube_map {A B : Type} (f : A → B) (c : cube A) : cube B :=
  (λ img : array2 A, arr_map f img) <$> c.

(** [c.where(cond, other)]: the value where [cond] holds, [other]
    elsewhere. *)
Definition cube_where (cond : cube bool) (c : cube value) (other : value)
    : cube value :=
  zip_with (zip_with (zip_with (λ (b : bool) x, if b then x else other)))
    cond c.

(** ** The dataset of the water-detection notebook *)

(** A data variable holds floats or booleans; where floats are expected,
    booleans count as 1 and 0. *)
Inductive variable : Type :=
  | FloatVar (c : cube value)
  | BoolVar (c : cube bool).

Definition values (v : variable) : cube value :=
  match v with
  | FloatVar c => c
  | BoolVar c => cube_map of_bool c
  end.

(** An xarray Dataset: variables by name.  Reading a variable that is not
    there raises (here: [None]). *)
Abbreviation Dataset := (gmap string variable).

(** The window size the notebook passes to [lee_filter]. *)
Definition speckle_size : nat := 7.

(** The speckle-filtering statements:

      valid = np.isfinite(data)
      masked = data.where(valid, 0)
      data["filtered_vv"] = masked.vv.groupby("time").map(lee_filter, size=7)
      data["filtered_vh"] = masked.vh.groupby("time").map(lee_filter, size=7)
      data['filtered_vv'] = data.filtered_vv.where(valid.vv)
      data['filtered_vh'] = data.filtered_vh.where(valid.vh) *)
Definition ds_isfinite (data : Dataset) : gmap string (cube bool) :=
  (λ v, cube_map isfinite (values v)) <$> data.

Definition ds_where (data : Dataset) (cond : gmap string (cube bool))
    (other : value) : gmap string (cube value) :=
  map_zip_with (λ v m, cube_where m (values v) other) data cond.

(** [groupby("time").map(f)]: [f] on every time slice.  xarray refuses to
    group an axis without any entry; the statements that tell the result of
    the cell are made for bands with at least one time step. *)
Definition groupby_time_map (f : array2 value → array2 value)
    (c : cube value) : cube value :=
  f <$> c.

Definition speckle_cell (data : Dataset) : option Dataset :=
  let valid := ds_isfinite data in
  let masked := ds_where data valid (Finite 0) in
  masked_vv ← masked !! "vv";
  let data1 :=
    <["filtered_vv" :=
       FloatVar (groupby_time_map (λ da, lee_filter da speckle_size) masked_vv)]>
      data in
  masked_vh ← masked !! "vh";
  let data2 :=
    <["filtered_vh" :=
       FloatVar (groupby_time_map (λ da, lee_filter da speckle_size) masked_vh)]>
      data1 in
  filtered_vv ← data2 !! "filtered_vv";
  valid_vv ← valid !! "vv";
  let data3 :=
    <["filtered_vv" := FloatVar (cube_where valid_vv (values filtered_vv) NaN)]>
      data2 in
  filtered_vh ← data3 !! "filtered_vh";
  valid_vh ← valid !! "vh";
  Some (<["filtered_vh" :=
           FloatVar (cube_where valid_vh (values filtered_vh) NaN)]> data3).

(** The decibel conversion [10 * np.log10(x)] of one value and of a
    variable. *)
Definition to_db (x : value) : value := fmul (Finite 10) (log10 x).

Definition db (c : cube value) : cube value := cube_map to_db c.

(**   data['filtered_vv'] = 10 * np.log10(data.filtered_vv)
      data['filtered_vh'] = 10 * np.log10(data.filtered_vh) *)
Definition db_cell (data : Dataset) : option Dataset :=
  filtered_vv ← data !! "filtered_vv";
  let data1 := <["filtered_vv" := FloatVar (db (values filtered_vv))]> data in
  filtered_vh ← data1 !! "filtered_vh";
  Some (<["filtered_vh" := FloatVar (db (values filtered_vh))]> data1).

(** The Sentinel-1 maximum-backscatter notebook:

      data["vv_db"] = 10 * np.log10(data.vv)
      data["vh_db"] = 10 * np.log10(data.vh) *)
Definition db_cell_max (data : Dataset) : option Dataset :=
  vv ← data !! "vv";
  let data1 := <["vv_db" := FloatVar (db (values vv))]> data in
  vh ← data1 !! "vh";
  Some (<["vh_db" := FloatVar (db (values vh))]> data1).

(** [a[~np.isnan(a)]]: the values that are not NaN, in C order. *)
Definition no_nans (c : cube value) : list value :=
  filter (λ x, isnan x = false) (concat (concat c)).

(**   def S1_water_classifier(da, threshold=threshold_vv):
          water_data_array = da < threshold
          return water_data_array.to_dataset(name="s1_water") *)
Definition S1_water_classifier (da : cube value) (threshold : value)
    : Dataset :=
  let water_data_array := cube_map (λ v, flt v threshold) da in
  {[ "s1_water" := BoolVar water_data_array ]}.

(**   data['water'] = S1_water_classifier(data.filtered_vv).s1_water *)
Definition classify_cell (threshold : value) (data : Dataset)
    : option Dataset :=
  filtered_vv ← data !! "filtered_vv";
  s1_water ← S1_water_classifier (values filtered_vv) threshold !! "s1_water";
  Some (<["water" := s1_water]> data).

Section Threshold.
(** skimage.filters.threshold_minimum: from a sample of values to the
    threshold between the two maxima of their smoothed histogram. *)
Variable threshold_minimum : list value → value.

(**   vv_no_nans = data.filtered_vv.values[~np.isnan(data.filtered_vv.values)]
      threshold_vv = threshold_minimum(vv_no_nans) *)
Definition threshold_cell (data : Dataset) : option value :=
  filtered_vv ← data !! "filtered_vv";
  let vv_no_nans := no_nans (values filtered_vv) in
  Some (threshold_minimum vv_no_nans).

(** The threshold cell, then the classification with the threshold it
    found as the default argument. *)
Definition classify_with_default (data : Dataset) : option Dataset :=
  threshold_vv ← threshold_cell data;
  classify_cell threshold_vv data.
End Threshold.

(** ** The summary over time *)

(** The values of pixel [(i, j)] along the time axis. *)
Definition time_series (c : cube value) (i j : nat) : list value :=
  (λ img, pixel img i j) <$> c.

(** A reduction along the time axis.  The result has the shape of a time
    slice; a cube without any slice has no pixel to report. *)
Definition reduce_time (f : list value → value) (c : cube value)
    : array2 value :=
  match c with
  | [] => []
  | img0 :: _ =>
      imap (λ i row, imap (λ j _, f (time_series c i j)) row) img0
  end.

(** [np.mean] and [np.std] (population standard deviation, [ddof = 0]). *)
Definition mean (l : list value) : value :=
  fdiv (nsum l) (Finite (INR (length l))).

Definition std (l : list value) : value :=
  let arrmean := mean l in
  fsqrt (mean ((λ x, fmul (fsub x arrmean) (fsub x arrmean)) <$> l)).

Definition times100 (a : array2 value) : array2 value :=
  arr_map (λ x, fmul x (Finite 100)) a.

(**   water_summary = (data.water.mean(dim='time') * 100)
                        .to_dataset(name="water_percentage")
      water_summary["water_stdev"] = data.water.std(dim='time') * 100 *)
Definition summary_cell (data : Dataset) : option (gmap string (array2 value)) :=
  water ← data !! "water";
  let water_summary : gmap string (array2 value) :=
    {[ "water_percentage" := times100 (reduce_time mean (values water)) ]} in
  water' ← data !! "water";
  Some (<["water_stdev" := times100 (reduce_time std (values water'))]>
          water_summary).

(** The cells from the speckle filter to the summary, for a given
    threshold. *)
Definition water_pipeline (threshold : value) (data : Dataset)
    : option (gmap string (array2 value)) :=
  data1 ← speckle_cell data;
  data2 ← db_cell data1;
  data3 ← classify_cell threshold data2;
  summary_cell data3.

(** ** Notions used in the statements *)

(** The length of row [i] (0 when there is none). *)
Definition row_length {A : Type} (a : array2 A) (i : nat) : nat :=
  length (default [] (a !! i)).

(** The number a value stands for ([0] for the values that are none). *)
Definition to_R (v : value) : R :=
  match v with Finite r => r | _ => 0%R end.

(** Every pixel of the image is a finite number. *)
Definition all_finite (img : array2 value) : Prop :=
  Forall (Forall (λ v, isfinite v = true)) img.

(** A slice with its null pixels set to 0, as [where(valid, 0)] leaves it. *)
Definition zero_fill (img : array2 value) : array2 value :=
  arr_map (λ x, if isfinite x then x else Finite 0) img.

(** What the speckle-filtering statements compute for one band. *)
Definition speckle_filter_band (c : cube value) : cube value :=
  let valid := cube_map isfinite c in
  let masked := cube_where valid c (Finite 0) in
  cube_where valid
    (groupby_time_map (λ da, lee_filter da speckle_size) masked) NaN.

(** A filtered band [f] of the band [c]: of the same length in time; at
    every pixel of [c], NaN where [c] is not finite and the Lee-filtered
    value of the zero-filled slice where it is; no pixel elsewhere.  The
    Lee-filtered value can be NaN itself, so a pixel of [f] is NaN exactly
    where the pixel of [c] is not finite or [lee_filter] returned NaN for
    it. *)
Definition masked_lee (c f : cube value) : Prop :=
  length f = length c ∧
  ∀ t img i j,
    c !! t = Some img →
    lookup3 f t i j =
      (λ x, if isfinite x
            then lee_blend_pixel (zero_fill img) speckle_size i j
            else NaN) <$> lookup2 img i j ∧
    (∀ x y, lookup2 img i j = Some x → lookup3 f t i j = Some y →
            (isnan y = true ↔
             isfinite x = false ∨
             lookup2 (lee_filter (zero_fill img) speckle_size) i j
               = Some NaN)).

(** The number of time steps classified as water. *)
Definition count_true (s : list bool) : nat :=
  length (filter (λ b, b = true) s).

Definition of_bool_R (b : bool) : R := if b then 1%R else 0%R.

(** The summary the water notebook builds from a boolean cube. *)
Definition summary_of (water : cube value) : gmap string (array2 value) :=
  <["water_stdev" := times100 (reduce_time std water)]>
    {[ "water_percentage" := times100 (reduce_time mean water) ]}.

(** ** The notebooks as sequences of calls *)

(** The stages of the pipeline the notebooks are said to follow.  [Setup]
    is everything that is no step of it: imports, opening the client,
    configuration, parameters, function definitions, printing. *)
Inductive stage : Type :=
  | Setup
  | CatalogSearch
  | LoadCube
  | Transform
  | Plot
  | Export.

#[global] Instance stage_eq_dec : EqDecision stage.
Proof. solve_decision. Defined.

(** The calls of the notebooks' statements.  The import statements of a
    cell are one [c_import]; [c_assign] is the assignment of a number, a
    string, a tuple or a dict (no array); [c_def] is a function definition;
    [c_arith] is an assignment of array arithmetic ([data.vh / data.vv]);
    [c_groupby_map] is [groupby("time").map(lee_filter, size=7)];
    [c_pyplot] is a call of matplotlib's [plt] or of an axis ([subplots],
    [set_title], [xlim], [axvspan], [show], ...); [c_folium] is
    [folium.Map] or a method of the map. *)
Inductive call : Type :=
  | c_import
  | c_assign
  | c_def
  | c_print
  | c_Client_open
  | c_configure_s3_access
  | c_configure_rio
  | c_filterwarnings
  | c_DaskClient
  | c_basemap_to_tiles
  | c_glob
  | c_makedirs
  | c_select_on_a_map
  | c_client_search
  | c_load
  | c_compute
  | c_lzma_open
  | c_open_dataset
  | c_arith
  | c_median
  | c_isfinite
  | c_where
  | c_groupby_map
  | c_log10
  | c_isnan
  | c_threshold_minimum
  | c_S1_water_classifier
  | c_mean
  | c_std
  | c_max
  | c_isel
  | c_sel
  | c_to_array
  | c_to_rgba
  | c_plot
  | c_imshow
  | c_hist
  | c_pyplot
  | c_explore
  | c_folium
  | c_add_to
  | c_write_cog
  | c_to_netcdf.

(** The stage a call belongs to.  [select_on_a_map] draws the interactive
    map on which the user selects the area ("Plot interactive map to select
    area"), and [basemap_to_tiles] only builds the layer that map is given;
    [glob] lists local files and is no search of a STAC catalog;
    [data.compute()] brings the loaded cube into memory; [lzma.open] and
    [xr.open_dataset] open a local file and read the cube it holds. *)
Definition stage_of (c : call) : stage :=
  match c with
  | c_import | c_assign | c_def | c_print
  | c_Client_open | c_configure_s3_access | c_configure_rio
  | c_filterwarnings | c_DaskClient | c_basemap_to_tiles
  | c_glob | c_makedirs => Setup
  | c_client_search => CatalogSearch
  | c_load | c_compute | c_lzma_open | c_open_dataset => LoadCube
  | c_arith | c_median | c_isfinite | c_where | c_groupby_map | c_log10
  | c_isnan | c_threshold_minimum | c_S1_water_classifier
  | c_mean | c_std | c_max | c_isel | c_sel | c_to_array | c_to_rgba =>
      Transform
  | c_select_on_a_map
  | c_plot | c_imshow | c_hist | c_pyplot | c_explore | c_folium
  | c_add_to => Plot
  | c_write_cog | c_to_netcdf => Export
  end.

(** A run of a notebook: the calls of its statements in the order they run,
    cell after cell.  A chain of calls is listed call by call
    ([data.to_array().plot.imshow(...)] is [c_to_array] then [c_imshow]),
    except that a [.compute()], [.squeeze()], [.item_collection()] or
    [.to_dataset()] that closes a chain belongs to the call it closes.  A
    statement that is only a name echoes the value and is left out. *)
Abbreviation notebook := (list call).

(** notebooks/examples/03_Sentinel-1_WaterDetection.ipynb *)
Definition sentinel1_water_detection : notebook :=
  [ c_import;
    (* catalog, client *)
    c_assign; c_Client_open;
    (* study_area, basemap, geom *)
    c_assign; c_basemap_to_tiles; c_select_on_a_map;
    (* datetime, items *)
    c_assign; c_client_search; c_print;
    (* data = load(...).compute() *)
    c_load;
    (* the plots of vv and of vh *)
    c_isel; c_plot;
    c_isel; c_plot;
    (* data['vh/vv'], medians, scaled *)
    c_arith; c_median; c_arith;
    c_isel; c_to_array; c_imshow;
    (* lee_filter, valid, masked, filtered_vv, filtered_vh *)
    c_def; c_isfinite; c_where; c_groupby_map; c_groupby_map;
    c_where; c_where;
    (* vv next to filtered_vv *)
    c_pyplot; c_isel; c_plot; c_isel; c_plot;
    c_pyplot; c_pyplot; c_pyplot;
    (* decibels *)
    c_log10; c_log10;
    (* the histograms *)
    c_pyplot; c_hist; c_hist; c_pyplot; c_pyplot; c_pyplot; c_pyplot;
    (* vv_no_nans, threshold_vv *)
    c_isnan; c_threshold_minimum; c_print;
    (* the histogram with the threshold *)
    c_pyplot; c_hist; c_pyplot; c_pyplot; c_pyplot; c_pyplot; c_pyplot;
    c_pyplot; c_pyplot;
    (* S1_water_classifier, data['water'] *)
    c_def;
    c_S1_water_classifier;
    (* water_summary and its two maps *)
    c_mean; c_std; c_explore;
    c_explore ].

(** notebooks/01_Landsat_GettingStarted.ipynb *)
Definition landsat_getting_started_01 : notebook :=
  [ c_import;
    c_assign; c_Client_open; c_configure_s3_access;
    (* coords, buffer, bbox, landsat_stretch, datetime *)
    c_assign; c_assign; c_assign; c_assign; c_assign;
    c_client_search; c_print;
    c_load;
    c_import; c_configure_rio;
    c_to_array; c_imshow;
    (* best *)
    c_sel; c_explore;
    c_to_rgba; c_write_cog ].

(** notebooks/Landsat_GettingStarted.ipynb *)
Definition landsat_getting_started : notebook :=
  [ c_import;
    c_assign; c_Client_open; c_configure_s3_access;
    c_assign; c_assign; c_assign; c_assign; c_assign;
    c_client_search; c_print;
    c_load;
    c_to_array; c_imshow;
    (* best, visualisation *)
    c_sel; c_to_rgba; c_explore;
    c_write_cog ].

(** The Sentinel-2 notebook. *)
Definition sentinel2_getting_started : notebook :=
  [ c_import;
    c_assign; c_Client_open;
    (* coords, buffer, bbox, datetime *)
    c_assign; c_assign; c_assign; c_assign;
    c_client_search; c_print;
    (* data = load(...); data = data.compute() *)
    c_load; c_compute;
    c_to_array; c_imshow;
    c_sel; c_to_rgba; c_explore;
    c_write_cog ].

(** The Sentinel-1 maximum-backscatter notebook. *)
Definition sentinel1_max_backscatter : notebook :=
  [ c_import;
    (* catalog, client, collection, datetime *)
    c_assign; c_Client_open; c_assign; c_assign;
    (* bbox *)
    c_assign;
    c_client_search; c_print;
    (* data, vv_db, vh_db *)
    c_load; c_log10; c_log10;
    (* vv_max, vh_max *)
    c_filterwarnings; c_DaskClient; c_max; c_max;
    (* the map *)
    c_folium; c_add_to; c_add_to; c_add_to; c_folium ].

(** The notebooks that use a STAC catalog. *)
Definition stac_notebooks : list notebook :=
  [ sentinel1_water_detection; landsat_getting_started_01;
    landsat_getting_started; sentinel2_getting_started;
    sentinel1_max_backscatter ].

(** The tide-model clipping notebook.  Its last cell is a loop over the
    local files that [glob] found:

      for path in tqdm(paths):
          with lzma.open(path, "rb") as f:
              out_path = path.replace(...).replace(".xz", "")
              os.makedirs(os.path.dirname(out_path), exist_ok=True)
              ds = xr.open_dataset(f).sel(...).to_netcdf(out_path, mode="w")

    A run with [files] files goes through the body [files] times. *)
Definition clip_one_file : notebook :=
  [ c_lzma_open; c_assign; c_makedirs;
    c_open_dataset; c_sel; c_to_netcdf ].

Definition tide_model_clipping (files : nat) : notebook :=
  [ c_import;
    (* miny, minx; maxy, maxx; region *)
    c_assign; c_assign; c_assign;
    (* paths *)
    c_glob ] ++ concat (replicate files clip_one_file).

(** The notebooks of the repository, the tide-model one run on [files]
    files. *)
Definition notebooks (files : nat) : list notebook :=
  stac_notebooks ++ [tide_model_clipping files].

(** The stages a run goes through. *)
Definition stages (nb : notebook) : list stage := stage_of <$> nb.

(** The place of a stage in search → load → transform → plot/export. *)
Definition stage_rank (s : stage) : option nat :=
  match s with
  | Setup => None
  | CatalogSearch => Some 0
  | LoadCube => Some 1
  | Transform => Some 2
  | Plot | Export => Some 3
  end.

Fixpoint nondecreasing (l : list nat) : bool :=
  match l with
  | x :: (y :: _) as tl => (x <=? y) && nondecreasing tl
  | _ => true
  end.

(** The steps of the pipeline come in the fixed order. *)
Definition in_order (rank : stage → option nat) (nb : notebook) : bool :=
  nondecreasing (omap rank (stages nb)).

Definition count_stage (s : stage) (nb : notebook) : nat :=
  length (filter (λ s', s' = s) (stages nb)).

Definition searches_catalog (nb : notebook) : bool :=
  bool_decide (CatalogSearch ∈ stages nb).

Definition loads (nb : notebook) : bool :=
  bool_decide (LoadCube ∈ stages nb).

(** Every step of stage [later] has a step of stage [first] before it;
    [seen] tells whether one has been met. *)
Fixpoint preceded (first later : stage) (seen : bool) (l : list stage)
    : bool :=
  match l with
  | [] => true
  | s :: l' =>
      (if decide (s = later) then seen else true) &&
      preceded first later (seen || bool_decide (s = first)) l'
  end.

Definition before (first later : stage) (nb : notebook) : bool :=
  preceded first later false (stages nb).

(** Some step of stage [later] comes after some step of stage [first];
    [seen] tells whether a step of stage [first] has been met. *)
Fixpoint follows_from (first later : stage) (seen : bool) (l : list stage)
    : bool :=
  match l with
  | [] => false
  | s :: l' =>
      (seen && bool_decide (s = later)) ||
      follows_from first later (seen || bool_decide (s = first)) l'
  end.

Definition follows (first later : stage) (nb : notebook) : bool :=
  follows_from first later false (stages nb).

(** The plot calls a run makes before its first load. *)
Fixpoint plots_before_load (nb : notebook) : list call :=
  match nb with
  | [] => []
  | c :: nb' =>
      if decide (stage_of c = LoadCube) then []
      else if decide (stage_of c = Plot) then c :: plots_before_load nb'
      else plots_before_load nb'
  end.

(** A linear script in the fixed order, with its catalog search. *)
Definition linear_script (nb : notebook) : bool :=
  in_order stage_rank nb && searches_catalog nb.

(** ** The maximum over time of the maximum-backscatter notebook *)

(** The larger of two values that are not NaN. *)
Definition fmax (a b : value) : value := if flt a b then b else a.

(** [max] along an axis skips the NaN entries of a float array
    ([np.nanmax]); a series of nothing but NaN gives NaN. *)
Definition nanmax (l : list value) : value :=
  match filter (λ x, isnan x = false) l with
  | [] => NaN
  | x :: xs => foldl fmax x xs
  end.

(**   vv_max = data.vv_db.max(dim=["time"]).compute()
      vh_max = data.vh_db.max(dim=["time"]).compute() *)
Definition max_cell (data : Dataset) : option (array2 value * array2 value) :=
  vv_db ← data !! "vv_db";
  let vv_max := reduce_time nanmax (values vv_db) in
  vh_db ← data !! "vh_db";
  let vh_max := reduce_time nanmax (values vh_db) in
  Some (vv_max, vh_max).

(** The cells from the speckle filter to the classification, for a given
    threshold: the [water] variable they leave in the dataset. *)
Definition classified_water (threshold : value) (data : Dataset)
    : option variable :=
  data1 ← speckle_cell data;
  data2 ← db_cell data1;
  data3 ← classify_cell threshold data2;
  data3 !! "water".

(** A number that is finite and not negative. *)
Definition nonneg (v : value) : Prop := ∃ x, v = Finite x ∧ (0 <= x)%R.

(** The fraction of the time steps in which the pixel is water. *)
Definition water_fraction (s : list bool) : R :=
  (INR (count_true s) / INR (length s))%R.

(** The parameter cell of the Landsat and Sentinel-2 notebooks:

      coords = 14.610, 121.0195   # Y then X, latitude then longitude
      buffer = 0.2
      bbox = (coords[1] - buffer, coords[0] - buffer,
              coords[1] + buffer, coords[0] + buffer) *)
Definition bbox (coords : R * R) (buffer : R) : R * R * R * R :=
  (coords.2 - buffer, coords.1 - buffer,
   coords.2 + buffer, coords.1 + buffer)%R.

(** ** Shapes and ranges *)

(** An array of [h] rows of [w] pixels each. *)
Definition has_shape {A : Type} (h w : nat) (a : array2 A) : Prop :=
  length a = h ∧ ∀ i, i < h → row_length a i = w.

(** Every pixel is a number of [[lo, hi]]. *)
Definition within (lo hi : R) (img : array2 value) : Prop :=
  Forall (Forall (λ v, ∃ x, v = Finite x ∧ (lo <= x <= hi)%R)) img.

(** * Properties *)

(** ** Positions and shapes *)

Section Positions.
Context {A : Type} `{Arith A}.
Implicit Types (a b img : array2 A) (i j size : nat).

Lemma lookup2_pixel a i j x : lookup2 a i j = Some x → pixel a i j = x.
Proof. unfold pixel, lookup2. by intros ->. Qed.

Lemma lookup2_arr_map {B : Type} (f : A → B) a i j :
  lookup2 (arr_map f a) i j = f <$> lookup2 a i j.
Proof.
  unfold lookup2, arr_map. rewrite list_lookup_fmap.
  destruct (a !! i) as [row|]; simpl; [|done].
  by rewrite list_lookup_fmap.
Qed.

Lemma lookup2_arr_map2 (f : A → A → A) a b i j :
  lookup2 (arr_map2 f a b) i j =
  x ← lookup2 a i j; y ← lookup2 b i j; Some (f x y).
Proof.
  unfold lookup2, arr_map2. rewrite lookup_zip_with.
  destruct (a !! i) as [ra|]; simpl; [|done].
  destruct (b !! i) as [rb|]; simpl.
  - by rewrite lookup_zip_with.
  - by destruct (ra !! j).
Qed.

Lemma lookup2_imap2 (g : nat → nat → A) a i j :
  lookup2 (imap (λ i row, imap (λ j _, g i j) row) a) i j =
  (λ _, g i j) <$> lookup2 a i j.
Proof.
  unfold lookup2. rewrite list_lookup_imap.
  destruct (a !! i) as [row|]; simpl; [|done].
  by rewrite list_lookup_imap.
Qed.

Lemma lookup2_uniform_filter_axis0 a size i j :
  lookup2 (uniform_filter_axis0 a size) i j =
  (λ _, window_mean (λ k, pixel a k j) size (window (length a) size i))
    <$> lookup2 a i j.
Proof.
  unfold uniform_filter_axis0.
  apply (lookup2_imap2
    (λ i j, window_mean (λ k, pixel a k j) size (window (length a) size i))).
Qed.

Lemma lookup2_uniform_filter_axis1 a size i j :
  lookup2 (uniform_filter_axis1 a size) i j =
  (λ row, window_mean (λ k, pixel a i k) size (window (length row) size j))
    <$> (row ← a !! i; _ ← row !! j; Some row).
Proof.
  unfold uniform_filter_axis1, lookup2. rewrite list_lookup_imap.
  destruct (a !! i) as [row|]; simpl; [|done].
  rewrite list_lookup_imap. by destruct (row !! j).
Qed.

(** The filter has a pixel exactly where its input has one. *)
Lemma lookup2_uniform_filter a size i j :
  lookup2 (uniform_filter a size) i j =
  (λ _, pixel (uniform_filter a size) i j) <$> lookup2 a i j.
Proof.
  destruct (lookup2 (uniform_filter a size) i j) as [y|] eqn:Hy.
  - rewrite (lookup2_pixel _ _ _ _ Hy).
    revert Hy. unfold uniform_filter. case_decide.
    + by intros ->.
    + rewrite lookup2_uniform_filter_axis1.
      destruct (uniform_filter_axis0 a size !! i) as [row|] eqn:Hrow;
        simpl; [|done].
      destruct (row !! j) as [z|] eqn:Hz; simpl; [|done].
      intros _.
      assert (Hl : lookup2 (uniform_filter_axis0 a size) i j = Some z)
        by (unfold lookup2; by rewrite Hrow).
      rewrite lookup2_uniform_filter_axis0 in Hl.
      by destruct (lookup2 a i j).
  - revert Hy. unfold uniform_filter. case_decide.
    + by intros ->.
    + rewrite lookup2_uniform_filter_axis1.
      destruct (uniform_filter_axis0 a size !! i) as [row|] eqn:Hrow; simpl.
      * destruct (row !! j) as [z|] eqn:Hz; simpl; [done|].
        intros _.
        assert (Hl : lookup2 (uniform_filter_axis0 a size) i j = None)
          by (unfold lookup2; by rewrite Hrow).
        rewrite lookup2_uniform_filter_axis0 in Hl.
        by destruct (lookup2 a i j).
      * intros _.
        assert (Hl : lookup2 (uniform_filter_axis0 a size) i j = None)
          by (unfold lookup2; by rewrite Hrow).
        rewrite lookup2_uniform_filter_axis0 in Hl.
        by destruct (lookup2 a i j).
Qed.

(** The pixelwise reading of [lee_filter]: at every position of the input
    the output holds the blend, and the output has no other position. *)
Lemma lookup2_lee_filter img size i j :
  lookup2 (lee_filter img size) i j =
  (λ _, lee_blend_pixel img size i j) <$> lookup2 img i j.
Proof.
  unfold lee_filter, lee_blend_pixel, arr_add, arr_sub, arr_mul, arr_div,
    arr_add_scalar, arr_sq.
  rewrite !lookup2_arr_map2, !lookup2_arr_map, !lookup2_arr_map2,
    !lookup2_arr_map, !lookup2_uniform_filter, !lookup2_arr_map.
  destruct (lookup2 img i j) as [x|] eqn:Hx; simpl; [|done].
  by rewrite (lookup2_pixel _ _ _ _ Hx).
Qed.

Lemma lookup2_lee_divisor img size i j :
  lookup2 (lee_divisor img size) i j =
  (λ _, nadd (nsub (pixel (uniform_filter (arr_sq img) size) i j)
                (nmul (pixel (uniform_filter img size) i j)
                      (pixel (uniform_filter img size) i j)))
             (variance img)) <$> lookup2 img i j.
Proof.
  unfold lee_divisor, arr_sub, arr_add_scalar, arr_sq.
  rewrite !lookup2_arr_map, !lookup2_arr_map2, !lookup2_arr_map,
    !lookup2_uniform_filter, !lookup2_arr_map.
  by destruct (lookup2 img i j).
Qed.
End Positions.

(** ** Sums and window means of real numbers *)

Lemma nsum_R_cons (x : R) (l : list R) : nsum (x :: l) = (x + nsum l)%R.
Proof. reflexivity. Qed.

Lemma nsum_R_nonneg (f : R → R) (l : list R) :
  (∀ x, 0 <= f x)%R → (0 <= nsum (f <$> l))%R.
Proof.
  intros Hf. induction l as [|x l IH].
  - simpl. lra.
  - rewrite fmap_cons, nsum_R_cons. specialize (Hf x). lra.
Qed.

Lemma nsum_R_mono {B : Type} (f g : B → R) (l : list B) :
  (∀ x, f x <= g x)%R → (nsum (f <$> l) <= nsum (g <$> l))%R.
Proof.
  intros Hfg. induction l as [|x l IH].
  - simpl. lra.
  - rewrite !fmap_cons, !nsum_R_cons. specialize (Hfg x). lra.
Qed.

(** The sum of the squared deviations from any [m]. *)
Lemma nsum_R_sq_shift (m : R) (l : list R) :
  nsum ((λ x, (x - m) * (x - m))%R <$> l) =
  (nsum ((λ x, x * x)%R <$> l) - 2 * m * nsum l + INR (length l) * m * m)%R.
Proof.
  induction l as [|x l IH].
  - simpl. lra.
  - rewrite !fmap_cons, !nsum_R_cons, IH, length_cons, S_INR. ring.
Qed.

(** The mean of the squares is at least the square of the mean. *)
Lemma mean_sq_le_sq_mean (l : list R) :
  l ≠ [] →
  (nsum l / INR (length l) * (nsum l / INR (length l))
   <= nsum ((λ x, x * x)%R <$> l) / INR (length l))%R.
Proof.
  intros Hl.
  assert (Hn : (0 < INR (length l))%R).
  { apply lt_0_INR. destruct l; [done | simpl; lia]. }
  pose proof (nsum_R_nonneg (λ x, (x - nsum l / INR (length l)) *
    (x - nsum l / INR (length l)))%R l) as Hpos.
  rewrite nsum_R_sq_shift in Hpos.
  set (s := nsum l) in *. set (q := nsum (_ <$> l)) in *.
  set (n := INR _) in *.
  assert (Hq : (s * s / n <= q)%R).
  { assert (E : (q - 2 * (s / n) * s + n * (s / n) * (s / n) = q - s * s / n)%R)
      by (field; lra).
    rewrite E in Hpos.
    assert (0 <= q - s * s / n)%R; [|lra].
    apply Hpos. intros x. exact (Rle_0_sqr _). }
  assert (E2 : (s / n * (s / n) = s * s / n / n)%R) by (field; lra).
  rewrite E2. apply Rmult_le_compat_r; [|done].
  left. by apply Rinv_0_lt_compat.
Qed.

Lemma length_window (n size i : nat) : length (window n size i) = size.
Proof. unfold window. by rewrite length_fmap, length_seq. Qed.

Lemma window_mean_R_mono (g h : nat → R) (size : nat) (w : list nat) :
  (∀ k, g k <= h k)%R → (window_mean g size w <= window_mean h size w)%R.
Proof.
  intros Hgh. unfold window_mean. simpl.
  apply Rmult_le_compat_r.
  - destruct size as [|size].
    + simpl. rewrite Rinv_0. lra.
    + left. apply Rinv_0_lt_compat, lt_0_INR. lia.
  - by apply nsum_R_mono.
Qed.

Lemma window_mean_R_jensen (g : nat → R) (size : nat) (w : list nat) :
  length w = size →
  (window_mean g size w * window_mean g size w
   <= window_mean (λ k, g k * g k) size w)%R.
Proof.
  intros Hlen. unfold window_mean. simpl.
  destruct w as [|k0 w].
  - simpl in *. subst size. simpl. unfold Rdiv. rewrite Rinv_0. lra.
  - pose proof (mean_sq_le_sq_mean (g <$> (k0 :: w))) as HJ.
    rewrite length_fmap, Hlen in HJ.
    rewrite <- list_fmap_compose in HJ.
    apply HJ. done.
Qed.

(** ** Pixels of the filtered arrays *)

Section FilterPixels.
Context {A : Type} `{Arith A}.
Implicit Types (a : array2 A) (i j size : nat).

Lemma pixel_lookup2 a i j :
  pixel a i j = default nzero (lookup2 a i j).
Proof. reflexivity. Qed.

Lemma pixel_uniform_filter_axis0 a size i j :
  pixel (uniform_filter_axis0 a size) i j =
  match lookup2 a i j with
  | Some _ => window_mean (λ k, pixel a k j) size (window (length a) size i)
  | None => nzero
  end.
Proof.
  rewrite pixel_lookup2, lookup2_uniform_filter_axis0.
  by destruct (lookup2 a i j).
Qed.

Lemma pixel_uniform_filter_axis1 a size i j :
  pixel (uniform_filter_axis1 a size) i j =
  match lookup2 a i j with
  | Some _ =>
      window_mean (λ k, pixel a i k) size (window (row_length a i) size j)
  | None => nzero
  end.
Proof.
  rewrite pixel_lookup2, lookup2_uniform_filter_axis1.
  unfold lookup2, row_length.
  destruct (a !! i) as [row|]; simpl; [|done].
  by destruct (row !! j).
Qed.

Lemma row_length_uniform_filter_axis0 a size i :
  row_length (uniform_filter_axis0 a size) i = row_length a i.
Proof.
  unfold row_length, uniform_filter_axis0. rewrite list_lookup_imap.
  destruct (a !! i) as [row|]; simpl; [|done].
  by rewrite length_imap.
Qed.

Lemma row_length_arr_map {B : Type} (f : A → B) a i :
  row_length (arr_map f a) i = row_length a i.
Proof.
  unfold row_length, arr_map. rewrite list_lookup_fmap.
  destruct (a !! i) as [row|]; simpl; [|done].
  by rewrite length_fmap.
Qed.

Lemma length_arr_map {B : Type} (f : A → B) a :
  length (arr_map f a) = length a.
Proof. unfold arr_map. by rewrite length_fmap. Qed.

Lemma lookup2_arr_sq a i j :
  lookup2 (arr_sq a) i j = (λ x, nmul x x) <$> lookup2 a i j.
Proof. apply lookup2_arr_map. Qed.

Lemma length_arr_sq a : length (arr_sq a) = length a.
Proof. apply length_arr_map. Qed.

Lemma row_length_arr_sq a i : row_length (arr_sq a) i = row_length a i.
Proof. apply row_length_arr_map. Qed.
End FilterPixels.

(** ** The local and the overall variance of a real image *)

Lemma pixel_arr_sq_R (X : array2 R) (i j : nat) :
  pixel (arr_sq X) i j = (pixel X i j * pixel X i j)%R.
Proof.
  rewrite !pixel_lookup2, lookup2_arr_sq.
  destruct (lookup2 X i j); simpl; [done | lra].
Qed.

Lemma axis0_variance_nonneg (X : array2 R) (size i j : nat) :
  (pixel (uniform_filter_axis0 X size) i j *
   pixel (uniform_filter_axis0 X size) i j
   <= pixel (uniform_filter_axis0 (arr_sq X) size) i j)%R.
Proof.
  rewrite !pixel_uniform_filter_axis0, lookup2_arr_sq, length_arr_sq.
  destruct (lookup2 X i j); simpl; [|lra].
  etransitivity; [apply window_mean_R_jensen, length_window|].
  apply window_mean_R_mono. intros k. rewrite pixel_arr_sq_R. lra.
Qed.

(** The local variance [img_sqr_mean - img_mean**2] is never negative. *)
Lemma local_variance_nonneg (X : array2 R) (size i j : nat) :
  (pixel (uniform_filter X size) i j * pixel (uniform_filter X size) i j
   <= pixel (uniform_filter (arr_sq X) size) i j)%R.
Proof.
  unfold uniform_filter. case_decide.
  - rewrite pixel_arr_sq_R. lra.
  - rewrite !pixel_uniform_filter_axis1, !lookup2_uniform_filter_axis0,
      !row_length_uniform_filter_axis0, lookup2_arr_sq, row_length_arr_sq.
    destruct (lookup2 X i j); simpl; [|lra].
    etransitivity; [apply window_mean_R_jensen, length_window|].
    apply window_mean_R_mono. intros k. apply axis0_variance_nonneg.
Qed.

(** The overall variance is never negative. *)
Lemma variance_R_nonneg (X : array2 R) : (0 <= variance X)%R.
Proof.
  unfold variance. simpl.
  set (vals := concat X). set (m := (nsum vals / INR (length vals))%R).
  apply Rmult_le_pos.
  - apply (nsum_R_nonneg (λ x, (x - m) * (x - m))%R). intros x.
    exact (Rle_0_sqr _).
  - destruct (length vals) as [|n] eqn:Hn.
    + simpl. rewrite Rinv_0. lra.
    + left. apply Rinv_0_lt_compat, lt_0_INR. lia.
Qed.

(** ** Finite images compute as real images *)

Lemma fdiv_Finite (x y : R) :
  y ≠ 0%R → fdiv (Finite x) (Finite y) = Finite (x / y).
Proof. intros Hy. simpl. by rewrite decide_False. Qed.

Lemma fdiv_zero_zero : fdiv (Finite 0) (Finite 0) = NaN.
Proof. simpl. rewrite decide_True by done. unfold scale_inf. by rewrite decide_True. Qed.

Lemma nsum_Finite (l : list R) : nsum (Finite <$> l) = Finite (nsum l).
Proof.
  induction l as [|x l IH]; [done|].
  rewrite fmap_cons. change (nsum (Finite x :: (Finite <$> l)))
    with (fadd (Finite x) (nsum (Finite <$> l))).
  by rewrite IH.
Qed.

Lemma pixel_Finite (X : array2 R) (i j : nat) :
  pixel (arr_map Finite X) i j = Finite (pixel X i j).
Proof.
  rewrite !pixel_lookup2, lookup2_arr_map. by destruct (lookup2 X i j).
Qed.

Lemma window_mean_Finite (gv : nat → value) (g : nat → R) (size : nat)
    (w : list nat) :
  (∀ k, gv k = Finite (g k)) → size ≠ 0 →
  window_mean gv size w = Finite (window_mean g size w).
Proof.
  intros Hg Hsize. unfold window_mean.
  rewrite (list_fmap_ext gv (Finite ∘ g) w) by (intros; apply Hg).
  rewrite list_fmap_compose, nsum_Finite.
  apply fdiv_Finite. by apply not_0_INR.
Qed.

Lemma uniform_filter_axis0_Finite (X : array2 R) (size : nat) :
  size ≠ 0 →
  uniform_filter_axis0 (arr_map Finite X) size =
  arr_map Finite (uniform_filter_axis0 X size).
Proof.
  intros Hsize. unfold uniform_filter_axis0.
  rewrite length_arr_map. unfold arr_map.
  rewrite imap_fmap, fmap_imap. apply imap_ext. intros i row _. simpl.
  rewrite imap_fmap, fmap_imap. apply imap_ext. intros j x _. simpl.
  apply window_mean_Finite; [|done]. intros k. apply pixel_Finite.
Qed.

Lemma uniform_filter_axis1_Finite (X : array2 R) (size : nat) :
  size ≠ 0 →
  uniform_filter_axis1 (arr_map Finite X) size =
  arr_map Finite (uniform_filter_axis1 X size).
Proof.
  intros Hsize. unfold uniform_filter_axis1. unfold arr_map.
  rewrite imap_fmap, fmap_imap. apply imap_ext. intros i row _. simpl.
  rewrite imap_fmap, fmap_imap, length_fmap. apply imap_ext. intros j x _.
  simpl. apply window_mean_Finite; [|done]. intros k. apply pixel_Finite.
Qed.

Lemma uniform_filter_Finite (X : array2 R) (size : nat) :
  uniform_filter (arr_map Finite X) size =
  arr_map Finite (uniform_filter X size).
Proof.
  unfold uniform_filter. case_decide; [done|].
  rewrite uniform_filter_axis0_Finite, uniform_filter_axis1_Finite by lia.
  done.
Qed.

Lemma arr_sq_Finite (X : array2 R) :
  arr_sq (arr_map Finite X) = arr_map Finite (arr_sq X).
Proof.
  unfold arr_sq, arr_map. rewrite <- !list_fmap_compose.
  apply list_fmap_ext. intros _ row _. simpl.
  rewrite <- !list_fmap_compose. by apply list_fmap_ext.
Qed.

Lemma concat_arr_map_Finite (X : array2 R) :
  concat (arr_map Finite X) = Finite <$> concat X.
Proof.
  induction X as [|row X IH]; [done|].
  simpl. by rewrite fmap_app, <- IH.
Qed.

(** The overall variance of a finite image that has a pixel is the real
    variance of its values; without any pixel it is [0/0]. *)
Lemma variance_Finite (X : array2 R) :
  concat X ≠ [] → variance (arr_map Finite X) = Finite (variance X).
Proof.
  intros Hne. unfold variance.
  rewrite concat_arr_map_Finite, length_fmap.
  set (vals := concat X) in *.
  assert (Hn : INR (length vals) ≠ 0%R).
  { apply not_0_INR. destruct vals; [done | simpl; lia]. }
  rewrite nsum_Finite. cbn [nof_nat ndiv nsub nmul value_arith R_arith].
  rewrite (fdiv_Finite _ _ Hn).
  rewrite <- list_fmap_compose.
  rewrite (list_fmap_ext _
    (Finite ∘ (λ x, (x - nsum vals / INR (length vals)) *
                    (x - nsum vals / INR (length vals)))%R) vals).
  - rewrite list_fmap_compose, nsum_Finite. by apply fdiv_Finite.
  - intros _ x _. simpl. by rewrite Rminus_def.
Qed.

Lemma variance_no_pixel (img : array2 value) :
  concat img = [] → variance img = NaN.
Proof. intros Hc. unfold variance. rewrite Hc. simpl. apply fdiv_zero_zero. Qed.

Lemma all_finite_lift (img : array2 value) :
  all_finite img → img = arr_map Finite (arr_map to_R img).
Proof.
  unfold all_finite, arr_map. rewrite <- list_fmap_compose.
  induction 1 as [|row img Hrow _ IH]; [done|].
  rewrite fmap_cons, <- IH. f_equal. simpl.
  clear IH. induction Hrow as [|v row Hv _ IH]; [done|].
  rewrite !fmap_cons, <- IH. by destruct v.
Qed.

Lemma lookup2_concat_nonempty {A : Type} (a : array2 A) (i j : nat) (x : A) :
  lookup2 a i j = Some x → concat a ≠ [].
Proof.
  unfold lookup2. revert i. induction a as [|row a IH]; intros i; [done|].
  destruct i as [|i]; simpl.
  - destruct row; [by rewrite lookup_nil | done].
  - intros Hx. specialize (IH _ Hx). by destruct row, (concat a).
Qed.

(** The pieces of the blend at one pixel of a finite image. *)
Lemma lee_divisor_Finite (X : array2 R) (size i j : nat) :
  concat X ≠ [] →
  lookup2 (lee_divisor (arr_map Finite X) size) i j =
  (λ _, Finite (pixel (uniform_filter (arr_sq X) size) i j
                + - (pixel (uniform_filter X size) i j
                     * pixel (uniform_filter X size) i j)
                + variance X)) <$> lookup2 X i j.
Proof.
  intros Hne.
  rewrite lookup2_lee_divisor, lookup2_arr_map, arr_sq_Finite,
    !uniform_filter_Finite, !pixel_Finite, (variance_Finite _ Hne).
  by destruct (lookup2 X i j).
Qed.

Lemma lee_blend_pixel_Finite (X : array2 R) (size i j : nat) :
  concat X ≠ [] →
  lee_blend_pixel (arr_map Finite X) size i j =
  let m := pixel (uniform_filter X size) i j in
  let v := (pixel (uniform_filter (arr_sq X) size) i j + - (m * m))%R in
  fadd (Finite m)
    (fmul (fdiv (Finite v) (Finite (v + variance X)))
          (Finite (pixel X i j + - m))).
Proof.
  intros Hne. unfold lee_blend_pixel.
  rewrite arr_sq_Finite, !uniform_filter_Finite, !pixel_Finite,
    (variance_Finite _ Hne).
  reflexivity.
Qed.

(** ** The Lee filter *)

(** C1.  [lee_filter] computes the adaptive Lee blend: at every pixel
    [(i, j)] of the input the output is
    [img_mean + w * (img - img_mean)], where [img_mean] is the local mean
    [uniform_filter(img, size)], the local variance is
    [uniform_filter(img**2, size) - img_mean**2] and the weight [w] is
    [variance / (variance + overall_variance)] with the variance of the whole
    image; the output has no pixel outside the input's positions. *)
Theorem lee_filter_is_lee_blend (img : array2 value) (size i j : nat) :
  lookup2 (lee_filter img size) i j =
  (λ _, lee_blend_pixel img size i j) <$> lookup2 img i j.
Proof.
  destruct (lookup2 img i j) as [x|] eqn:Hx.
  - rewrite lookup2_lee_filter, Hx. reflexivity.
  - rewrite lookup2_lee_filter, Hx. reflexivity.
Qed.

(** The filtered pixel of a finite image, by the value of the divisor. *)
Lemma lee_filter_Finite_cases (X : array2 R) (size i j : nat) (x : R) :
  lookup2 X i j = Some x →
  let r := (pixel (uniform_filter (arr_sq X) size) i j
            + - (pixel (uniform_filter X size) i j
                 * pixel (uniform_filter X size) i j)
            + variance X)%R in
  (variance X <= r)%R ∧
  (r = 0%R → lookup2 (lee_filter (arr_map Finite X) size) i j = Some NaN) ∧
  (r ≠ 0%R →
   ∃ y, lookup2 (lee_filter (arr_map Finite X) size) i j = Some (Finite y)).
Proof.
  intros Hx.
  pose proof (lookup2_concat_nonempty _ _ _ _ Hx) as Hne.
  pose proof (local_variance_nonneg X size i j) as Hloc.
  pose proof (variance_R_nonneg X) as Hov.
  rewrite lookup2_lee_filter, lookup2_arr_map, Hx.
  rewrite (lee_blend_pixel_Finite _ _ _ _ Hne).
  cbn [fmap option_fmap option_map fadd fmul fdiv].
  set (m := pixel (uniform_filter X size) i j) in *.
  set (q := pixel (uniform_filter (arr_sq X) size) i j) in *.
  split; [lra|]. split.
  - intros Hr. rewrite decide_True by done.
    unfold scale_inf. rewrite decide_True by lra. done.
  - intros Hr. rewrite decide_False by done. eauto.
Qed.

(** The divisor is the one [lee_filter] divides by. *)
Lemma lee_filter_divides_by_lee_divisor {A : Type} `{Arith A}
    (img : array2 A) (size : nat) :
  lee_filter img size =
  arr_add (uniform_filter img size)
    (arr_mul
      (arr_div
        (arr_sub (uniform_filter (arr_sq img) size)
                 (arr_sq (uniform_filter img size)))
        (lee_divisor img size))
      (arr_sub img (uniform_filter img size))).
Proof. reflexivity. Qed.

(** The local mean of the corner pixel of a 2 x 2 image, window 7: the
    window reads the reflected rows and columns [1 1 0 0 1 1 0]. *)
Example uniform_filter_2x2_corner :
  pixel (uniform_filter [[0; 1]; [1; 0]]%R 7) 0 0 = (24 / 49)%R.
Proof. vm_compute. lra. Qed.

(** A division by zero of the weight, followed by the blend: the result is
    never a finite number, and it is NaN when the numerator is zero too. *)
Lemma blend_after_zero_division (m v p : value) (a : R) :
  v = Finite a →
  isfinite (fadd m (fmul (fdiv v (Finite 0)) p)) = false ∧
  (a = 0%R → fadd m (fmul (fdiv v (Finite 0)) p) = NaN).
Proof.
  intros ->. cbn [fdiv]. rewrite decide_True by done.
  unfold scale_inf. split.
  - repeat case_decide; destruct m, p; cbn [fmul fadd isfinite];
      unfold scale_inf; repeat case_decide; done.
  - intros ->. rewrite decide_True by done. by destruct m.
Qed.

(** C6, as the code has it.  [lee_filter] has no guard against a zero
    divisor and its division is numpy's array division, which raises
    nothing: for every input it returns an array with exactly the positions
    of the input.  Wherever the divisor [img_variance + overall_variance] is
    zero, the weight is [0/0 = NaN] or infinite and the output pixel is not
    a finite number; it is NaN when the local variance at the pixel is zero
    as well. *)
Theorem lee_filter_zero_divisor (img : array2 value) (size : nat) :
  (∀ i j, is_Some (lookup2 (lee_filter img size) i j) ↔
          is_Some (lookup2 img i j)) ∧
  (∀ i j,
     lookup2 (lee_divisor img size) i j = Some (Finite 0) →
     ∃ y,
       lookup2 (lee_filter img size) i j = Some y ∧
       isfinite y = false ∧
       (fsub (pixel (uniform_filter (arr_sq img) size) i j)
             (fmul (pixel (uniform_filter img size) i j)
                   (pixel (uniform_filter img size) i j)) = Finite 0 →
        y = NaN)).
Proof.
  split.
  { intros i j. rewrite lookup2_lee_filter. apply fmap_is_Some. }
  intros i j Hd.
  rewrite lookup2_lee_divisor in Hd. rewrite lookup2_lee_filter.
  destruct (lookup2 img i j) as [x|] eqn:Hx; [|done].
  cbn [fmap option_fmap option_map] in Hd |- *.
  eexists. split; [reflexivity|].
  unfold lee_blend_pixel.
  set (ov := variance img) in *.
  set (m := pixel (uniform_filter img size) i j) in *.
  set (q := pixel (uniform_filter (arr_sq img) size) i j) in *.
  set (p := pixel img i j).
  apply (inj Some) in Hd.
  cbn [nadd nsub nmul ndiv value_arith] in Hd |- *.
  set (v := fsub q (fmul m m)) in *.
  rewrite Hd.
  destruct v as [a| | |] eqn:Hv;
    try (destruct ov; discriminate Hd).
  destruct (blend_after_zero_division m (Finite a) (fsub p m) a eq_refl)
    as [Hinf Hnan].
  split; [exact Hinf|].
  intros Ha. apply Hnan. congruence.
Qed.

(** A constant image: both variances are zero, so the divisor is zero and
    the filtered pixel is [0/0]. *)
Lemma lee_filter_constant_ones :
  lookup2 (lee_divisor (arr_map Finite [[1; 1]; [1; 1]]%R) 7) 0 0
    = Some (Finite 0) ∧
  lookup2 (lee_filter (arr_map Finite [[1; 1]; [1; 1]]%R) 7) 0 0 = Some NaN.
Proof.
  assert (Hx : lookup2 [[1; 1]; [1; 1]]%R 0 0 = Some 1%R) by done.
  destruct (lee_filter_Finite_cases _ 7 0 0 _ Hx) as (_ & Hz & _).
  split.
  - rewrite lee_divisor_Finite by done.
    vm_compute. do 2 f_equal. lra.
  - apply Hz. vm_compute. lra.
Qed.

(** The divisor is zero on the 2 x 2 image of ones. *)
Lemma lee_divisor_zero_on_constant_image :
  lookup2 (lee_divisor [[Finite 1; Finite 1]; [Finite 1; Finite 1]] 7) 0 0
    = Some (Finite 0) ∧
  lookup2 (lee_filter [[Finite 1; Finite 1]; [Finite 1; Finite 1]] 7) 0 0
    = Some NaN.
Proof. exact lee_filter_constant_ones. Qed.

Lemma lee_filter_zero_divisor_witness :
  lookup2 (lee_divisor (arr_map Finite [[1; 1]; [1; 1]]%R) 7) 0 0
    = Some (Finite 0) ∧
  ∃ y,
    lookup2 (lee_filter (arr_map Finite [[1; 1]; [1; 1]]%R) 7) 0 0 = Some y ∧
    isfinite y = false.
Proof.
  split; [exact (proj1 lee_filter_constant_ones)|].
  destruct (lee_filter_zero_divisor (arr_map Finite [[1; 1]; [1; 1]]%R) 7)
    as [_ Hzero].
  destruct (Hzero 0 0 (proj1 lee_filter_constant_ones))
    as (y & Hy & Hinf & _).
  exists y. split; [exact Hy | exact Hinf].
Defined.

(** ** Decibels and the classifier *)

Lemma lookup3_cube_map {A B : Type} (f : A → B) (c : cube A) (t i j : nat) :
  lookup3 (cube_map f c) t i j = f <$> lookup3 c t i j.
Proof.
  unfold lookup3, cube_map. rewrite list_lookup_fmap.
  destruct (c !! t) as [img|]; simpl; [|done].
  unfold lookup2, arr_map. rewrite list_lookup_fmap.
  destruct (img !! i) as [row|]; simpl; [|done].
  by rewrite list_lookup_fmap.
Qed.

Lemma ln_10_pos : (0 < ln 10)%R.
Proof. rewrite <- ln_1. apply ln_increasing; lra. Qed.

Lemma to_db_positive (x : R) :
  (0 < x)%R → to_db (Finite x) = Finite (10 * (ln x / ln 10)).
Proof. intros Hx. unfold to_db, log10. by rewrite decide_True. Qed.

(** The conversion is strictly increasing on the positive numbers: a dB
    value is below [t] exactly when the linear value is below
    [10 ** (t / 10)]. *)
Lemma db_below_iff (x t : R) :
  (0 < x)%R → (10 * (ln x / ln 10) < t)%R ↔ (x < Rpower 10 (t / 10))%R.
Proof.
  intros Hx. pose proof ln_10_pos as H10. unfold Rpower.
  assert (E : (10 * (ln x / ln 10) < t)%R ↔ (ln x < t / 10 * ln 10)%R).
  { split; intros Hlt.
    - apply (Rmult_lt_reg_r (10 / ln 10)).
      + apply Rdiv_lt_0_compat; lra.
      + replace (t / 10 * ln 10 * (10 / ln 10))%R with t by (field; lra).
        replace (ln x * (10 / ln 10))%R with (10 * (ln x / ln 10))%R
          by (field; lra).
        done.
    - apply (Rmult_lt_compat_r (10 / ln 10)) in Hlt.
      + replace (t / 10 * ln 10 * (10 / ln 10))%R with t in Hlt
          by (field; lra).
        replace (ln x * (10 / ln 10))%R with (10 * (ln x / ln 10))%R in Hlt
          by (field; lra).
        done.
      + apply Rdiv_lt_0_compat; lra. }
  rewrite E. split; intros Hlt.
  - rewrite <- (exp_ln x Hx). by apply exp_increasing.
  - rewrite <- (ln_exp (t / 10 * ln 10)).
    apply ln_increasing; [exact Hx | exact Hlt].
Qed.

Lemma elem_of_no_nans (c : cube value) (x : value) :
  x ∈ no_nans c ↔ x ∈ concat (concat c) ∧ x ≠ NaN.
Proof.
  unfold no_nans. rewrite list_elem_of_filter.
  split.
  - intros [Hnan Hin]. split; [exact Hin|]. by intros ->.
  - intros [Hin Hnan]. split; [|exact Hin]. by destruct x.
Qed.

Section Classifier.
Variable threshold_minimum : list value → value.

(** C2.  The threshold is [threshold_minimum] of the filtered values that
    are not NaN; the classifier returns a dataset whose one variable
    [s1_water] is boolean and holds, at every pixel, [v < threshold]: true
    exactly for the numbers strictly below the threshold, false for the
    numbers at or above it (and for NaN); the notebook stores that variable
    as [water], classified with the threshold it computed. *)
Theorem S1_water_classifier_threshold_rule
    (data : Dataset) (da : cube value) (threshold : value) :
  threshold_cell threshold_minimum data
    = (λ fvv, threshold_minimum (no_nans (values fvv)))
        <$> data !! "filtered_vv" ∧
  (∀ c x, x ∈ no_nans c ↔ x ∈ concat (concat c) ∧ x ≠ NaN) ∧
  (∃ w, S1_water_classifier da threshold = {[ "s1_water" := BoolVar w ]} ∧
        ∀ t i j, lookup3 w t i j = (λ v, flt v threshold) <$> lookup3 da t i j) ∧
  (∀ v thr : R, flt (Finite v) (Finite thr) = true ↔ (v < thr)%R) ∧
  (∀ v thr : R, (thr <= v)%R → flt (Finite v) (Finite thr) = false) ∧
  (∀ thr, flt NaN thr = false) ∧
  classify_with_default threshold_minimum data
    = (λ fvv,
         <["water" :=
             BoolVar (cube_map
               (λ v, flt v (threshold_minimum (no_nans (values fvv))))
               (values fvv))]> data)
        <$> data !! "filtered_vv".
Proof.
  split; [|split; [|split; [|split; [|split; [|split]]]]].
  - unfold threshold_cell. by destruct (data !! "filtered_vv").
  - apply elem_of_no_nans.
  - eexists. split; [reflexivity|]. intros t i j. apply lookup3_cube_map.
  - intros v thr. simpl. apply bool_decide_eq_true.
  - intros v thr Hle. simpl. apply bool_decide_eq_false. lra.
  - by intros [].
  - unfold classify_with_default, threshold_cell, classify_cell.
    destruct (data !! "filtered_vv") as [fvv|]; simpl; [|done].
    unfold S1_water_classifier. by rewrite lookup_singleton_eq.
Qed.
End Classifier.

(** C4.  The decibel conversion is the pointwise map [x -> 10 * log10 x]:
    a positive linear value [x] becomes exactly [10 * (ln x / ln 10)], at
    every pixel of the converted variable; each band is converted from its
    own values only ([filtered_vv] and [filtered_vh] in the water notebook,
    [vv] and [vh] into [vv_db] and [vh_db] in the maximum-backscatter
    notebook). *)
Theorem db_conversion_pointwise (data : Dataset) (c : cube value) (t i j : nat) :
  (∀ x : R, (0 < x)%R → to_db (Finite x) = Finite (10 * (ln x / ln 10))) ∧
  lookup3 (db c) t i j = to_db <$> lookup3 c t i j ∧
  db_cell data
    = (fvv ← data !! "filtered_vv"; fvh ← data !! "filtered_vh";
       Some (<["filtered_vh" := FloatVar (db (values fvh))]>
              (<["filtered_vv" := FloatVar (db (values fvv))]> data))) ∧
  db_cell_max data
    = (vv ← data !! "vv"; vh ← data !! "vh";
       Some (<["vh_db" := FloatVar (db (values vh))]>
              (<["vv_db" := FloatVar (db (values vv))]> data))).
Proof.
  split; [exact to_db_positive|]. split; [apply lookup3_cube_map|]. split.
  - unfold db_cell. destruct (data !! "filtered_vv") as [fvv|]; simpl; [|done].
    by rewrite lookup_insert_ne.
  - unfold db_cell_max. destruct (data !! "vv") as [vv|]; simpl; [|done].
    by rewrite lookup_insert_ne.
Qed.

(** C7.  Thresholding in decibels commutes with the conversion: for a
    positive linear value [x] at a pixel and a threshold [thr] in dB, the
    classifier applied after the conversion reports water exactly when
    [x < 10 ** (thr / 10)]. *)
Theorem db_threshold_commutes
    (c : cube value) (thr : R) (t i j : nat) (x : R) :
  (0 < x)%R →
  lookup3 c t i j = Some (Finite x) →
  ∃ w b,
    S1_water_classifier (db c) (Finite thr) = {[ "s1_water" := BoolVar w ]} ∧
    lookup3 w t i j = Some b ∧
    (b = true ↔ (x < Rpower 10 (thr / 10))%R).
Proof.
  intros Hx Hc. eexists _, _. split; [reflexivity|]. split.
  - unfold db. rewrite !lookup3_cube_map, Hc. reflexivity.
  - rewrite (to_db_positive x Hx). simpl.
    rewrite bool_decide_eq_true. by apply db_below_iff.
Qed.

Lemma db_threshold_commutes_witness :
  ∃ w b,
    S1_water_classifier (db [[[Finite 1; Finite 100]]]) (Finite 10)
      = {[ "s1_water" := BoolVar w ]} ∧
    lookup3 w 0 0 0 = Some b ∧
    (b = true ↔ (1 < Rpower 10 (10 / 10))%R).
Proof.
  apply (db_threshold_commutes [[[Finite 1; Finite 100]]] 10 0 0 0 1).
  - lra.
  - reflexivity.
Defined.

(** ** The summary over time *)

Lemma count_true_cons (b : bool) (s : list bool) :
  count_true (b :: s) = (if b then 1 else 0) + count_true s.
Proof. unfold count_true. by destruct b. Qed.

Lemma count_true_le_length (s : list bool) : count_true s ≤ length s.
Proof. apply length_filter. Qed.

Lemma of_bool_series (s : list bool) :
  of_bool <$> s = Finite <$> (of_bool_R <$> s).
Proof. rewrite <- list_fmap_compose. apply list_fmap_ext. by intros _ [] _. Qed.

Lemma nsum_of_bool_R (s : list bool) :
  nsum (of_bool_R <$> s) = INR (count_true s).
Proof.
  induction s as [|b s IH]; [done|].
  rewrite fmap_cons, nsum_R_cons, IH, count_true_cons, plus_INR.
  by destruct b.
Qed.

Lemma nsum_of_bool_R_sq (s : list bool) :
  nsum ((λ x, x * x)%R <$> (of_bool_R <$> s)) = INR (count_true s).
Proof.
  rewrite <- nsum_of_bool_R. f_equal.
  rewrite <- list_fmap_compose. apply list_fmap_ext.
  intros _ [] _; simpl; lra.
Qed.

(** The mean of a boolean series is the fraction of its true entries. *)
Lemma mean_of_bool (s : list bool) :
  s ≠ [] →
  mean (of_bool <$> s) = Finite (INR (count_true s) / INR (length s)).
Proof.
  intros Hs. unfold mean.
  rewrite of_bool_series, nsum_Finite, nsum_of_bool_R, !length_fmap.
  apply fdiv_Finite, not_0_INR. by destruct s.
Qed.

(** Its standard deviation is [sqrt (p * (1 - p))] for that fraction [p]. *)
Lemma std_of_bool (s : list bool) :
  s ≠ [] →
  std (of_bool <$> s) =
  Finite (sqrt (INR (count_true s) / INR (length s)
                * (1 - INR (count_true s) / INR (length s)))).
Proof.
  intros Hs. unfold std. rewrite (mean_of_bool s Hs).
  set (p := (INR (count_true s) / INR (length s))%R).
  assert (Hn : INR (length s) ≠ 0%R) by (apply not_0_INR; by destruct s).
  rewrite of_bool_series, <- list_fmap_compose.
  rewrite (list_fmap_ext _ (Finite ∘ (λ x, (x - p) * (x - p))%R)
             (of_bool_R <$> s)).
  2:{ intros _ x _. simpl. by rewrite <- Rminus_def. }
  rewrite list_fmap_compose. unfold mean.
  rewrite nsum_Finite, !length_fmap, (fdiv_Finite _ _ Hn).
  rewrite nsum_R_sq_shift, nsum_of_bool_R_sq, nsum_of_bool_R, length_fmap.
  replace ((INR (count_true s) - 2 * p * INR (count_true s)
            + INR (length s) * p * p) / INR (length s))%R
    with (p * (1 - p))%R by (unfold p; field; done).
  unfold fsqrt. rewrite decide_False; [done|].
  assert (0 <= p <= 1)%R; [|nra].
  unfold p. split.
  - apply Rmult_le_pos; [apply pos_INR|].
    left. apply Rinv_0_lt_compat, lt_0_INR. destruct s; [done | simpl; lia].
  - apply (Rmult_le_reg_r (INR (length s))).
    + apply lt_0_INR. destruct s; [done | simpl; lia].
    + replace (INR (count_true s) / INR (length s) * INR (length s))%R
        with (INR (count_true s)) by (field; done).
      rewrite Rmult_1_l. apply le_INR, count_true_le_length.
Qed.

Lemma time_series_of_bool (w : cube bool) (s : list bool) (i j : nat) :
  Forall2 (λ img b, lookup2 img i j = Some b) w s →
  time_series (cube_map of_bool w) i j = of_bool <$> s.
Proof.
  unfold time_series, cube_map. rewrite <- list_fmap_compose.
  induction 1 as [|img b w s Hb _ IH]; [done|].
  rewrite !fmap_cons, IH. f_equal. simpl.
  by rewrite pixel_lookup2, lookup2_arr_map, Hb.
Qed.

Lemma lookup2_reduce_time (f : list value → value) (c : cube value)
    (i j : nat) :
  lookup2 (reduce_time f c) i j =
  (λ _, f (time_series c i j)) <$> (c !! 0 ≫= λ img, lookup2 img i j).
Proof.
  destruct c as [|img0 c]; [done|]. simpl.
  apply (lookup2_imap2 (λ i j, f (time_series (img0 :: c) i j))).
Qed.

(** C3.  For a pixel whose classifications over the [n > 0] time steps are
    the booleans [s], [k] of them true: [water_percentage] is
    [100 * k / n], the mean of the booleans (True = 1, False = 0) times 100,
    and [water_stdev] is 100 times their (population) standard deviation,
    [sqrt (p * (1 - p))] for [p = k / n]; a pixel that is water in every
    time step gets 100, one that never is gets 0. *)
Theorem water_summary_class_frequency
    (data : Dataset) (w : cube bool) (s : list bool) (i j : nat) :
  data !! "water" = Some (BoolVar w) →
  Forall2 (λ img b, lookup2 img i j = Some b) w s →
  s ≠ [] →
  let n := INR (length s) in
  let k := INR (count_true s) in
  ∃ water_summary,
    summary_cell data = Some water_summary ∧
    (water_summary !! "water_percentage" ≫= λ a, lookup2 a i j)
      = Some (Finite (100 * k / n)) ∧
    (water_summary !! "water_stdev" ≫= λ a, lookup2 a i j)
      = Some (Finite (100 * sqrt (k / n * (1 - k / n)))) ∧
    (count_true s = length s →
     (water_summary !! "water_percentage" ≫= λ a, lookup2 a i j)
       = Some (Finite 100)) ∧
    (count_true s = 0 →
     (water_summary !! "water_percentage" ≫= λ a, lookup2 a i j)
       = Some (Finite 0)).
Proof.
  intros Hwater Hs Hne n k.
  assert (Hn : n ≠ 0%R) by (apply not_0_INR; by destruct s).
  assert (Hpx : (cube_map of_bool w !! 0 ≫= λ img, lookup2 img i j)
                = Some (of_bool (default false (head s)))).
  { destruct Hs as [|img b w s Hb _]; [done|]. simpl.
    by rewrite lookup2_arr_map, Hb. }
  assert (Hpct : lookup2 (times100 (reduce_time mean (cube_map of_bool w))) i j
                 = Some (Finite (100 * k / n))).
  { unfold times100. rewrite lookup2_arr_map, lookup2_reduce_time, Hpx.
    rewrite (time_series_of_bool w s i j Hs), (mean_of_bool s Hne).
    simpl. do 2 f_equal. fold k n. field. done. }
  assert (Hstd : lookup2 (times100 (reduce_time std (cube_map of_bool w))) i j
                 = Some (Finite (100 * sqrt (k / n * (1 - k / n))))).
  { unfold times100. rewrite lookup2_arr_map, lookup2_reduce_time, Hpx.
    rewrite (time_series_of_bool w s i j Hs), (std_of_bool s Hne).
    simpl. do 2 f_equal. fold k n. ring. }
  unfold summary_cell. rewrite Hwater. simpl.
  eexists. split; [reflexivity|].
  rewrite lookup_insert_ne by done.
  rewrite lookup_singleton_eq, lookup_insert_eq. simpl.
  split; [exact Hpct|]. split; [exact Hstd|]. split.
  - intros Hall. rewrite Hpct. do 2 f_equal.
    unfold k. rewrite Hall. fold n. field. done.
  - intros Hnone. rewrite Hpct. do 2 f_equal.
    unfold k. rewrite Hnone. simpl. field. done.
Qed.

Lemma water_summary_class_frequency_witness :
  ∃ water_summary,
    summary_cell {[ "water" := BoolVar [[[true]]; [[false]]; [[true]]; [[true]]] ]}
      = Some water_summary ∧
    (water_summary !! "water_percentage" ≫= λ a, lookup2 a 0 0)
      = Some (Finite (100 * INR 3 / INR 4)).
Proof.
  destruct (water_summary_class_frequency
    {[ "water" := BoolVar [[[true]]; [[false]]; [[true]]; [[true]]] ]}
    [[[true]]; [[false]]; [[true]]; [[true]]]
    [true; false; true; true] 0 0)
    as (ws & Hcell & Hpct & _).
  - apply lookup_singleton_eq.
  - repeat constructor.
  - discriminate.
  - exists ws. split; [exact Hcell | exact Hpct].
Defined.

(** ** The null mask around the filter *)

Lemma zip_with_fmap_diag {A B C : Type} (f : B → A → C) (g : A → B)
    (l : list A) :
  zip_with f (g <$> l) l = (λ x, f (g x) x) <$> l.
Proof. by rewrite zip_with_fmap_l, zip_with_diag. Qed.

Lemma cube_where_isfinite_zero (c : cube value) :
  cube_where (cube_map isfinite c) c (Finite 0) = zero_fill <$> c.
Proof.
  unfold cube_where, cube_map, zero_fill, arr_map.
  rewrite zip_with_fmap_diag. apply list_fmap_ext. intros _ img _.
  rewrite zip_with_fmap_diag. apply list_fmap_ext. intros _ row _.
  by rewrite zip_with_fmap_diag.
Qed.

Lemma zero_fill_Finite (img : array2 value) :
  zero_fill img = arr_map Finite (arr_map to_R img).
Proof.
  unfold zero_fill, arr_map. rewrite <- list_fmap_compose.
  apply list_fmap_ext. intros _ row _. simpl.
  rewrite <- list_fmap_compose. apply list_fmap_ext. by intros _ [] _.
Qed.

Lemma lookup3_cube_where (cond : cube bool) (c : cube value) (other : value)
    (t i j : nat) :
  lookup3 (cube_where cond c other) t i j =
  b ← lookup3 cond t i j; x ← lookup3 c t i j;
  Some (if b : bool then x else other).
Proof.
  unfold lookup3, cube_where. rewrite lookup_zip_with.
  destruct (cond !! t) as [m|]; simpl; [|done].
  destruct (c !! t) as [img|]; simpl.
  2:{ by destruct (lookup2 m i j). }
  unfold lookup2. rewrite lookup_zip_with.
  destruct (m !! i) as [mrow|]; simpl; [|done].
  destruct (img !! i) as [row|]; simpl.
  2:{ by destruct (mrow !! j). }
  by rewrite lookup_zip_with.
Qed.

(** One band after the speckle-filtering statements, pixel by pixel. *)
Lemma lookup3_speckle_filter_band (c : cube value) (img : array2 value)
    (t i j : nat) :
  c !! t = Some img →
  lookup3 (speckle_filter_band c) t i j =
  (λ x, if isfinite x
        then lee_blend_pixel (zero_fill img) speckle_size i j
        else NaN) <$> lookup2 img i j.
Proof.
  intros Himg. unfold speckle_filter_band, groupby_time_map.
  rewrite lookup3_cube_where, lookup3_cube_map, cube_where_isfinite_zero.
  assert (HF : lookup3 ((λ da : array2 value, lee_filter da speckle_size)
                          <$> (zero_fill <$> c)) t i j
               = (λ _, lee_blend_pixel (zero_fill img) speckle_size i j)
                   <$> lookup2 img i j).
  { unfold lookup3. rewrite !list_lookup_fmap, Himg. simpl.
    rewrite lookup2_lee_filter. unfold zero_fill at 2.
    rewrite lookup2_arr_map. by destruct (lookup2 img i j). }
  rewrite HF. unfold lookup3. rewrite Himg. simpl.
  by destruct (lookup2 img i j) as [x|].
Qed.

Lemma length_speckle_filter_band (c : cube value) :
  length (speckle_filter_band c) = length c.
Proof.
  unfold speckle_filter_band, cube_where, groupby_time_map, cube_map.
  repeat (rewrite ?length_zip_with, ?length_fmap). lia.
Qed.

(** The speckle-filtering statements on the dataset. *)
Lemma speckle_cell_bands (data : Dataset) :
  speckle_cell data =
  vv ← data !! "vv"; vh ← data !! "vh";
  Some (<["filtered_vh" := FloatVar (speckle_filter_band (values vh))]>
         (<["filtered_vv" := FloatVar (speckle_filter_band (values vv))]>
           (<["filtered_vh" :=
                FloatVar (groupby_time_map (λ da, lee_filter da speckle_size)
                  (cube_where (cube_map isfinite (values vh)) (values vh)
                     (Finite 0)))]>
             (<["filtered_vv" :=
                  FloatVar (groupby_time_map (λ da, lee_filter da speckle_size)
                    (cube_where (cube_map isfinite (values vv)) (values vv)
                       (Finite 0)))]> data)))).
Proof.
  unfold speckle_cell, ds_where, ds_isfinite.
  rewrite !map_lookup_zip_with, !lookup_fmap.
  destruct (data !! "vv") as [vv|]; simpl; [|done].
  destruct (data !! "vh") as [vh|]; simpl; [|done].
  rewrite lookup_insert_ne by done. rewrite lookup_insert_eq. simpl.
  rewrite lookup_insert_ne by done. rewrite lookup_insert_eq. simpl.
  reflexivity.
Qed.

Lemma isnan_true (y : value) : isnan y = true ↔ y = NaN.
Proof. by destruct y. Qed.

Lemma masked_lee_speckle_filter_band (c : cube value) :
  masked_lee c (speckle_filter_band c).
Proof.
  split; [apply length_speckle_filter_band|].
  intros t img i j Himg.
  pose proof (lookup3_speckle_filter_band c img t i j Himg) as Hpx.
  split; [exact Hpx|].
  intros x y Hx. rewrite Hpx, Hx.
  cbn [fmap option_fmap option_map]. intros Hy. apply (inj Some) in Hy.
  rewrite lookup2_lee_filter. unfold zero_fill at 2.
  rewrite lookup2_arr_map, Hx. cbn [fmap option_fmap option_map].
  subst y. destruct (isfinite x).
  - rewrite isnan_true. split.
    + intros ->. by right.
    + intros [?|Hnan]; [done|]. by apply (inj Some) in Hnan.
  - split; [by left | done].
Qed.

(** C5, as the code has it.  On a dataset whose bands [vv] and [vh] have at
    least one time step, the speckle-filtering statements succeed, and
    [filtered_vv] and [filtered_vh] have the positions of [vv] and [vh].
    Non-finite (null) pixels are replaced by 0 before [lee_filter] is
    applied and masked again afterwards: an output pixel whose input was not
    finite is null (NaN), and an output pixel whose input was finite holds
    the value [lee_filter] computes for it over the zero-filled slice,
    whatever that value is.  So an output pixel is null exactly where the
    input was not finite or the Lee-filtered value is NaN. *)
Theorem speckle_filter_null_mask (data : Dataset) (vv vh : variable) :
  data !! "vv" = Some vv →
  data !! "vh" = Some vh →
  values vv ≠ [] →
  values vh ≠ [] →
  ∃ data' fvv fvh,
    speckle_cell data = Some data' ∧
    data' !! "filtered_vv" = Some (FloatVar fvv) ∧
    data' !! "filtered_vh" = Some (FloatVar fvh) ∧
    masked_lee (values vv) fvv ∧
    masked_lee (values vh) fvh.
Proof.
  intros Hvv Hvh _ _.
  rewrite speckle_cell_bands, Hvv. simpl. rewrite Hvh. simpl.
  eexists _, _, _. split; [reflexivity|].
  split; [by rewrite lookup_insert_ne, lookup_insert_eq|].
  split; [by rewrite lookup_insert_eq|].
  split; apply masked_lee_speckle_filter_band.
Qed.

(** A finite pixel of a constant slice comes out null. *)
Lemma speckle_filter_nulls_constant_slice :
  ∃ data',
    speckle_cell
      (<["vv" := FloatVar [[[Finite 1; Finite 1]; [Finite 1; Finite 1]]]]>
         {[ "vh" := FloatVar [[[Finite 1; Finite 1]; [Finite 1; Finite 1]]] ]})
      = Some data' ∧
    (data' !! "filtered_vv" ≫= λ v, lookup3 (values v) 0 0 0) = Some NaN.
Proof.
  rewrite speckle_cell_bands.
  rewrite lookup_insert_eq. simpl.
  rewrite lookup_insert_ne by done. rewrite lookup_singleton_eq. simpl.
  eexists. split; [reflexivity|].
  rewrite lookup_insert_ne by done. rewrite lookup_insert_eq. simpl.
  rewrite (lookup3_speckle_filter_band _
    [[Finite 1; Finite 1]; [Finite 1; Finite 1]]) by done.
  cbn [lookup2 lookup list_lookup mbind option_bind fmap option_fmap
       option_map isfinite].
  pose proof lee_filter_constant_ones as [_ Hnan].
  rewrite lookup2_lee_filter in Hnan. rewrite zero_fill_Finite.
  exact Hnan.
Qed.

Lemma speckle_filter_null_mask_witness :
  ∃ data' fvv fvh,
    speckle_cell
      (<["vv" := FloatVar [[[Finite 0; Finite 1]; [NaN; Finite 0]]]]>
         {[ "vh" := FloatVar [[[Finite 2; NaN]; [Finite 1; Finite 0]]] ]})
      = Some data' ∧
    data' !! "filtered_vv" = Some (FloatVar fvv) ∧
    data' !! "filtered_vh" = Some (FloatVar fvh) ∧
    masked_lee [[[Finite 0; Finite 1]; [NaN; Finite 0]]] fvv ∧
    masked_lee [[[Finite 2; NaN]; [Finite 1; Finite 0]]] fvh.
Proof.
  apply (speckle_filter_null_mask _
    (FloatVar [[[Finite 0; Finite 1]; [NaN; Finite 0]]])
    (FloatVar [[[Finite 2; NaN]; [Finite 1; Finite 0]]])).
  - apply lookup_insert_eq.
  - rewrite lookup_insert_ne by done. apply lookup_singleton_eq.
  - done.
  - done.
Defined.

(** ** No state but the input bands *)

(** The cells from the speckle filter to the summary read the bands [vv]
    and [vh] of the dataset and nothing else of it. *)
Lemma water_pipeline_reads_bands (threshold : value) (data : Dataset) :
  water_pipeline threshold data =
  vv ← data !! "vv"; _ ← data !! "vh";
  Some (summary_of
    (cube_map of_bool
      (cube_map (λ v, flt v threshold)
        (db (speckle_filter_band (values vv)))))).
Proof.
  unfold water_pipeline. rewrite speckle_cell_bands.
  destruct (data !! "vv") as [vv|]; simpl; [|done].
  destruct (data !! "vh") as [vh|]; simpl; [|done].
  unfold db_cell.
  rewrite lookup_insert_ne by done. rewrite lookup_insert_eq. simpl.
  rewrite lookup_insert_ne by done. rewrite lookup_insert_eq. simpl.
  unfold classify_cell.
  rewrite lookup_insert_ne by done. rewrite lookup_insert_eq. simpl.
  unfold S1_water_classifier. rewrite lookup_singleton_eq. simpl.
  unfold summary_cell. rewrite lookup_insert_eq. simpl.
  reflexivity.
Qed.

(** C9.  Two runs of the speckle filter, the dB conversion, the classifier
    and the summary over time, from any two states of the notebook's
    dataset that hold the same input bands [vv] and [vh] and with the same
    threshold (the window size is the notebook's 7 in both), end in the same
    summary: whatever else the dataset holds, left by earlier cells or
    earlier runs, has no influence. *)
Theorem water_pipeline_deterministic
    (threshold : value) (data1 data2 : Dataset) :
  data1 !! "vv" = data2 !! "vv" →
  data1 !! "vh" = data2 !! "vh" →
  water_pipeline threshold data1 = water_pipeline threshold data2.
Proof.
  intros Hvv Hvh. rewrite !water_pipeline_reads_bands.
  rewrite Hvv. destruct (data2 !! "vv") as [vv|]; simpl; [|done].
  by rewrite Hvh.
Qed.

Lemma water_pipeline_deterministic_witness :
  water_pipeline (Finite (-15))
    (<["vv" := FloatVar [[[Finite 0; Finite 1]; [NaN; Finite 0]]]]>
       {[ "vh" := FloatVar [[[Finite 2; NaN]; [Finite 1; Finite 0]]] ]})
  = water_pipeline (Finite (-15))
    (<["water" := BoolVar [[[true; true]; [true; true]]]]>
      (<["filtered_vv" := FloatVar [[[Finite 5; Finite 5]; [NaN; NaN]]]]>
        (<["vv" := FloatVar [[[Finite 0; Finite 1]; [NaN; Finite 0]]]]>
           {[ "vh" := FloatVar [[[Finite 2; NaN]; [Finite 1; Finite 0]]] ]}))).
Proof.
  apply water_pipeline_deterministic.
  - rewrite lookup_insert_eq.
    rewrite lookup_insert_ne by done. rewrite lookup_insert_ne by done.
    by rewrite lookup_insert_eq.
  - rewrite lookup_insert_ne by done. rewrite lookup_singleton_eq.
    rewrite lookup_insert_ne by done. rewrite lookup_insert_ne by done.
    rewrite lookup_insert_ne by done. by rewrite lookup_singleton_eq.
Defined.

(** ** The order of the steps of the notebooks *)

Lemma stages_tide_model_clipping (files : nat) :
  stages (tide_model_clipping files) =
  [Setup; Setup; Setup; Setup; Setup] ++
  concat (replicate files (stages clip_one_file)).
Proof.
  unfold stages, tide_model_clipping. rewrite fmap_app. f_equal.
  induction files as [|n IH]; [done|].
  cbn [replicate concat]. by rewrite fmap_app, IH.
Qed.

Lemma preceded_clip_files (later : stage) (seen : bool) (files : nat) :
  later = Transform ∨ later = Export →
  preceded LoadCube later seen
    (concat (replicate files (stages clip_one_file))) = true.
Proof.
  intros Hl. revert seen. induction files as [|n IH]; intros seen; [done|].
  cbn [replicate concat]. destruct Hl as [-> | ->], seen; simpl; apply IH.
Qed.

Lemma no_search_in_clip_files (files : nat) :
  CatalogSearch ∉ concat (replicate files (stages clip_one_file)).
Proof.
  induction files as [|n IH]; [by apply not_elem_of_nil|].
  cbn [replicate concat]. rewrite elem_of_app. intros [Hin|Hin]; [|done].
  revert Hin. apply (bool_decide_eq_true_1 _). reflexivity.
Qed.

Lemma count_export_clip_files (files : nat) :
  length (filter (λ s, s = Export)
            (concat (replicate files (stages clip_one_file)))) = files.
Proof.
  induction files as [|n IH]; [done|].
  cbn [replicate concat]. rewrite filter_app, length_app, IH. done.
Qed.

(** With two files the tide-model notebook, one of the notebooks, loads
    again after it has exported, and it searches no catalog: it is no linear
    script in the fixed order. *)
Lemma not_every_notebook_linear :
  tide_model_clipping 2 ∈ notebooks 2 ∧
  searches_catalog (tide_model_clipping 2) = false ∧
  in_order stage_rank (tide_model_clipping 2) = false ∧
  Exists (λ nb, linear_script nb = false) (notebooks 2).
Proof.
  split; [|split; [|split]].
  - unfold notebooks. apply elem_of_app. right. apply list_elem_of_here.
  - reflexivity.
  - reflexivity.
  - unfold notebooks, stac_notebooks. apply Exists_cons_hd. reflexivity.
Qed.

(** C8, as the notebooks have it.  Each of the five notebooks that use a
    STAC catalog searches it once and loads the raster cube after the
    search; every transform and every export of these notebooks comes after
    a load, and so does every plot, except that the water-detection
    notebook draws the interactive map for selecting the area before its
    search.  Only the maximum-backscatter notebook goes through search,
    load, transform, plot in that fixed order: each of the other four
    transforms the cube again after it has plotted it.  The tide-model
    clipping notebook has no catalog search and is a loop over local files:
    whatever the number of files, it exports once per file and every clip
    and export comes after a load; it loads as soon as there is a file, and
    from the second file on a load follows an export, out of the fixed
    order. *)
Theorem notebooks_search_then_load :
  Forall (λ nb,
      count_stage CatalogSearch nb = 1 ∧
      loads nb = true ∧
      before CatalogSearch LoadCube nb = true ∧
      before LoadCube Transform nb = true ∧
      before LoadCube Export nb = true) stac_notebooks ∧
  Forall (λ nb, before LoadCube Plot nb = true)
    [ landsat_getting_started_01; landsat_getting_started;
      sentinel2_getting_started; sentinel1_max_backscatter ] ∧
  plots_before_load sentinel1_water_detection = [c_select_on_a_map] ∧
  before Plot CatalogSearch sentinel1_water_detection = true ∧
  linear_script sentinel1_max_backscatter = true ∧
  Forall (λ nb, follows Plot Transform nb = true ∧
                in_order stage_rank nb = false)
    [ sentinel1_water_detection; landsat_getting_started_01;
      landsat_getting_started; sentinel2_getting_started ] ∧
  ∀ files : nat,
    searches_catalog (tide_model_clipping files) = false ∧
    count_stage Export (tide_model_clipping files) = files ∧
    before LoadCube Transform (tide_model_clipping files) = true ∧
    before LoadCube Export (tide_model_clipping files) = true ∧
    loads (tide_model_clipping (S files)) = true ∧
    follows Export LoadCube (tide_model_clipping (S (S files))) = true ∧
    in_order stage_rank (tide_model_clipping (S (S files))) = false.
Proof.
  split; [|split; [|split; [|split; [|split; [|split]]]]].
  - unfold stac_notebooks.
    repeat (apply Forall_cons; split; [by repeat split|]).
    apply Forall_nil_2.
  - repeat (apply Forall_cons; split; [reflexivity|]). apply Forall_nil_2.
  - reflexivity.
  - reflexivity.
  - reflexivity.
  - repeat (apply Forall_cons; split; [by split|]). apply Forall_nil_2.
  - intros files. split; [|split; [|split; [|split; [|split; [|split]]]]].
    + unfold searches_catalog. apply bool_decide_eq_false.
      rewrite stages_tide_model_clipping, elem_of_app.
      intros [Hin|Hin].
      * revert Hin. apply (bool_decide_eq_true_1 _). reflexivity.
      * by apply (no_search_in_clip_files files).
    + unfold count_stage.
      rewrite stages_tide_model_clipping, filter_app, length_app.
      by rewrite count_export_clip_files.
    + unfold before. rewrite stages_tide_model_clipping.
      apply (preceded_clip_files Transform false files). by left.
    + unfold before. rewrite stages_tide_model_clipping.
      apply (preceded_clip_files Export false files). by right.
    + unfold loads. apply bool_decide_eq_true.
      rewrite stages_tide_model_clipping. cbn [replicate concat].
      rewrite !elem_of_app. right. left.
      apply (bool_decide_eq_true_1 _). reflexivity.
    + unfold follows. rewrite stages_tide_model_clipping. reflexivity.
    + unfold in_order. rewrite stages_tide_model_clipping. reflexivity.
Qed.

(** * Further properties of the code *)

(** ** The window of the uniform filter *)

Lemma reflect_lt (n : nat) (k : Z) : 0 < n → reflect n k < n.
Proof.
  intros Hn. unfold reflect.
  pose proof (Z.mod_pos_bound k (2 * Z.of_nat n) ltac:(lia)) as Hr.
  destruct (Z.ltb_spec (k mod (2 * Z.of_nat n)) (Z.of_nat n)); lia.
Qed.

Lemma window_lt (n size i k : nat) : 0 < n → k ∈ window n size i → k < n.
Proof.
  intros Hn. unfold window. rewrite list_elem_of_fmap.
  intros (m & -> & _). by apply reflect_lt.
Qed.

Lemma nsum_R_bounds (lo hi : R) (l : list R) :
  Forall (λ x, lo <= x <= hi)%R l →
  (INR (length l) * lo <= nsum l <= INR (length l) * hi)%R.
Proof.
  induction 1 as [|x l Hx _ IH].
  - simpl. lra.
  - rewrite nsum_R_cons, length_cons, S_INR. lra.
Qed.

(** A window mean of numbers of [[lo, hi]] is in [[lo, hi]]. *)
Lemma window_mean_R_bounds (lo hi : R) (g : nat → R) (size : nat)
    (w : list nat) :
  length w = size → 0 < size →
  (∀ k, k ∈ w → (lo <= g k <= hi)%R) →
  (lo <= window_mean g size w <= hi)%R.
Proof.
  intros Hlen Hsize Hg. unfold window_mean. simpl.
  assert (Hn : (0 < INR size)%R) by (by apply lt_0_INR).
  pose proof (nsum_R_bounds lo hi (g <$> w)) as Hb.
  rewrite length_fmap, Hlen in Hb.
  destruct Hb as [Hlo Hhi].
  { apply Forall_fmap, Forall_forall. intros k Hk. by apply Hg. }
  split.
  - apply (Rmult_le_reg_r (INR size)); [done|].
    replace (nsum (g <$> w) / INR size * INR size)%R with (nsum (g <$> w))
      by (field; lra).
    lra.
  - apply (Rmult_le_reg_r (INR size)); [done|].
    replace (nsum (g <$> w) / INR size * INR size)%R with (nsum (g <$> w))
      by (field; lra).
    lra.
Qed.

Lemma has_shape_lookup2 {A : Type} (h w : nat) (a : array2 A) (i j : nat) :
  has_shape h w a → i < h → j < w → is_Some (lookup2 a i j).
Proof.
  intros [Hlen Hrows] Hi Hj. specialize (Hrows i Hi).
  unfold lookup2, row_length in *.
  destruct (a !! i) as [row|] eqn:Hrow; simpl in *.
  - apply lookup_lt_is_Some. lia.
  - apply lookup_ge_None in Hrow. lia.
Qed.

Lemma has_shape_uniform_filter_axis0 (h w size : nat) (X : array2 R) :
  has_shape h w X → has_shape h w (uniform_filter_axis0 X size).
Proof.
  intros [Hlen Hrows]. split.
  - unfold uniform_filter_axis0. by rewrite length_imap.
  - intros i Hi. rewrite row_length_uniform_filter_axis0. by apply Hrows.
Qed.

Lemma has_shape_arr_map {A B : Type} (f : A → B) (h w : nat) (a : array2 A) :
  has_shape h w a → has_shape h w (arr_map f a).
Proof.
  intros [Hlen Hrows]. split.
  - unfold arr_map. by rewrite length_fmap.
  - intros i Hi. unfold row_length, arr_map in *.
    rewrite list_lookup_fmap. specialize (Hrows i Hi).
    destruct (a !! i) as [row|]; simpl in *; [|done].
    by rewrite length_fmap.
Qed.

(** The local mean of numbers of [[lo, hi]] is in [[lo, hi]]. *)
Lemma uniform_filter_R_bounds (lo hi : R) (h w size : nat) (X : array2 R) :
  has_shape h w X →
  (∀ i j, i < h → j < w → (lo <= pixel X i j <= hi)%R) →
  ∀ i j, i < h → j < w →
    (lo <= pixel (uniform_filter X size) i j <= hi)%R.
Proof.
  intros Hshape Hpx. unfold uniform_filter. case_decide; [done|].
  assert (H0 : ∀ i j, i < h → j < w →
    (lo <= pixel (uniform_filter_axis0 X size) i j <= hi)%R).
  { intros i j Hi Hj. rewrite pixel_uniform_filter_axis0.
    destruct (has_shape_lookup2 h w X i j Hshape Hi Hj) as [x ->].
    apply window_mean_R_bounds; [apply length_window | lia |].
    intros k Hk. apply Hpx; [|done].
    destruct Hshape as [<- _]. eapply window_lt; [lia | done]. }
  intros i j Hi Hj. rewrite pixel_uniform_filter_axis1.
  pose proof (has_shape_uniform_filter_axis0 h w size X Hshape) as Hshape0.
  destruct (has_shape_lookup2 h w _ i j Hshape0 Hi Hj) as [x ->].
  apply window_mean_R_bounds; [apply length_window | lia |].
  intros k Hk. apply H0; [done|].
  destruct Hshape0 as [_ Hrows]. rewrite (Hrows i Hi) in Hk.
  eapply window_lt; [lia | done].
Qed.

(** ** More on the Lee filter *)

Lemma within_all_finite (lo hi : R) (img : array2 value) :
  within lo hi img → all_finite img.
Proof.
  unfold within, all_finite. intros Hw.
  eapply Forall_impl; [exact Hw|]. intros row Hrow.
  eapply Forall_impl; [exact Hrow|]. by intros v (x & -> & _).
Qed.

Lemma within_lookup2 (lo hi : R) (img : array2 value) (i j : nat) (v : value) :
  within lo hi img → lookup2 img i j = Some v →
  ∃ x, v = Finite x ∧ (lo <= x <= hi)%R.
Proof.
  unfold within, lookup2. intros Hw Hv.
  destruct (img !! i) as [row|] eqn:Hrow; simpl in Hv; [|done].
  pose proof (Forall_lookup_1 _ _ _ _ Hw Hrow) as Hr.
  exact (Forall_lookup_1 _ _ _ _ Hr Hv).
Qed.

Lemma within_pixel_to_R (lo hi : R) (h w : nat) (img : array2 value) :
  within lo hi img → has_shape h w img →
  ∀ i j, i < h → j < w → (lo <= pixel (arr_map to_R img) i j <= hi)%R.
Proof.
  intros Hw Hshape i j Hi Hj.
  destruct (has_shape_lookup2 h w img i j Hshape Hi Hj) as [v Hv].
  destruct (within_lookup2 lo hi img i j v Hw Hv) as (x & -> & Hx).
  by rewrite pixel_lookup2, lookup2_arr_map, Hv.
Qed.

(** The overall variance of a finite image, read as a real number. *)
Lemma variance_to_R (img : array2 value) (ov : R) :
  all_finite img → variance img = Finite ov →
  variance (arr_map to_R img) = ov.
Proof.
  intros Hfin Hov. rewrite (all_finite_lift img Hfin) in Hov.
  destruct (concat (arr_map to_R img)) eqn:Hc.
  - rewrite variance_no_pixel in Hov; [done|].
    by rewrite concat_arr_map_Finite, Hc.
  - rewrite variance_Finite in Hov by (by rewrite Hc). by injection Hov.
Qed.

(** X1.  Where the local variance is zero and the overall variance is not,
    the weight is zero and the filtered pixel is the local mean: a flat
    neighbourhood is replaced by its mean, whatever the noisy pixel. *)
Theorem lee_filter_flat_window_is_local_mean
    (img : array2 value) (size i j : nat) (x m ov : R) :
  lookup2 img i j = Some (Finite x) →
  pixel (uniform_filter img size) i j = Finite m →
  fsub (pixel (uniform_filter (arr_sq img) size) i j)
       (fmul (Finite m) (Finite m)) = Finite 0 →
  variance img = Finite ov → ov ≠ 0%R →
  lookup2 (lee_filter img size) i j = Some (Finite m).
Proof.
  intros Hx Hm Hv Hov Hnz. rewrite lookup2_lee_filter, Hx.
  cbn [fmap option_fmap option_map]. f_equal.
  unfold lee_blend_pixel. rewrite Hov, Hm, (lookup2_pixel _ _ _ _ Hx).
  cbn [nadd nsub nmul ndiv value_arith]. rewrite Hv.
  cbn [fadd fsub fneg fmul fdiv].
  rewrite decide_False by lra. f_equal. field. lra.
Qed.

Lemma lee_filter_flat_window_is_local_mean_witness :
  lookup2
    (lee_filter [[Finite 0; Finite 0; Finite 0; Finite 0; Finite 1];
                 [Finite 0; Finite 0; Finite 0; Finite 0; Finite 1]] 7) 0 0
  = Some (Finite 0).
Proof.
  apply (lee_filter_flat_window_is_local_mean _ 7 0 0 0 0 (4 / 25)).
  - reflexivity.
  - change [[Finite 0; Finite 0; Finite 0; Finite 0; Finite 1];
            [Finite 0; Finite 0; Finite 0; Finite 0; Finite 1]]
      with (arr_map Finite [[0; 0; 0; 0; 1]; [0; 0; 0; 0; 1]]%R).
    rewrite uniform_filter_Finite, pixel_Finite. f_equal. vm_compute. lra.
  - change [[Finite 0; Finite 0; Finite 0; Finite 0; Finite 1];
            [Finite 0; Finite 0; Finite 0; Finite 0; Finite 1]]
      with (arr_map Finite [[0; 0; 0; 0; 1]; [0; 0; 0; 0; 1]]%R).
    rewrite arr_sq_Finite, uniform_filter_Finite, pixel_Finite.
    cbn [fsub fneg fmul fadd]. f_equal. vm_compute. lra.
  - change [[Finite 0; Finite 0; Finite 0; Finite 0; Finite 1];
            [Finite 0; Finite 0; Finite 0; Finite 0; Finite 1]]
      with (arr_map Finite [[0; 0; 0; 0; 1]; [0; 0; 0; 0; 1]]%R).
    rewrite variance_Finite by done. f_equal. vm_compute. lra.
  - lra.
Defined.

Lemma nsum_R_constant (c : R) (l : list R) :
  Forall (λ x, x = c) l → nsum l = (INR (length l) * c)%R.
Proof.
  induction 1 as [|x l -> _ IH].
  - simpl. lra.
  - rewrite nsum_R_cons, IH, length_cons, S_INR. lra.
Qed.

(** The overall variance of a constant image is zero. *)
Lemma variance_R_constant (c : R) (X : array2 R) :
  Forall (λ x, x = c) (concat X) → variance X = 0%R.
Proof.
  intros Hc. unfold variance. simpl.
  set (vals := concat X) in *.
  destruct vals as [|x0 vals'] eqn:Hv.
  - simpl. lra.
  - rewrite <- Hv in *.
    assert (Hn : INR (length vals) ≠ 0%R)
      by (apply not_0_INR; rewrite Hv; simpl; lia).
    rewrite (nsum_R_constant c vals Hc).
    replace (INR (length vals) * c / INR (length vals))%R with c
      by (field; done).
    rewrite (nsum_R_constant 0
      ((λ x, (x - c) * (x - c))%R <$> vals)).
    + lra.
    + apply Forall_fmap. eapply Forall_impl; [exact Hc|].
      intros x ->. simpl. lra.
Qed.

Lemma within_constant_concat (c : R) (img : array2 value) :
  within c c img → Forall (λ x, x = c) (concat (arr_map to_R img)).
Proof.
  unfold within, arr_map. induction 1 as [|row img Hrow _ IH]; [done|].
  rewrite fmap_cons. simpl. apply Forall_app. split; [|exact IH].
  apply Forall_fmap. eapply Forall_impl; [exact Hrow|].
  intros v (x & -> & Hx). simpl. lra.
Qed.

(** X3.  An image of nothing but zeros, which is what a time slice without
    any valid pixel is once its nulls are set to 0, is filtered to NaN at
    every pixel, for every window size: the divisor of the weights is zero
    at every pixel. *)
Theorem lee_filter_zero_image_is_nan
    (img : array2 value) (h w size i j : nat) :
  within 0 0 img → has_shape h w img →
  i < h → j < w →
  lookup2 (lee_divisor img size) i j = Some (Finite 0) ∧
  lookup2 (lee_filter img size) i j = Some NaN.
Proof.
  intros Hw Hshape Hi Hj.
  pose proof (within_all_finite 0 0 img Hw) as Hfin.
  pose proof (within_pixel_to_R 0 0 h w img Hw Hshape) as Hpx.
  destruct (has_shape_lookup2 h w img i j Hshape Hi Hj) as [v Hv].
  rewrite (all_finite_lift img Hfin).
  set (X := arr_map to_R img) in *.
  assert (HX : lookup2 X i j = Some (to_R v))
    by (unfold X; by rewrite lookup2_arr_map, Hv).
  pose proof (has_shape_arr_map to_R h w img Hshape) as HshapeX.
  pose proof (uniform_filter_R_bounds 0 0 h w size X HshapeX Hpx i j Hi Hj)
    as Hm.
  assert (Hq : (0 <= pixel (uniform_filter (arr_sq X) size) i j <= 0)%R).
  { apply (uniform_filter_R_bounds 0 0 h w size (arr_sq X));
      [by apply has_shape_arr_map | | done | done].
    intros i' j' Hi' Hj'. rewrite pixel_arr_sq_R.
    specialize (Hpx i' j' Hi' Hj').
    assert (E : pixel X i' j' = 0%R) by lra. rewrite E. lra. }
  pose proof (variance_R_constant 0 X (within_constant_concat 0 img Hw))
    as Hvar.
  destruct (lee_filter_Finite_cases X size i j _ HX) as (_ & Hz & _).
  assert (Hr : (pixel (uniform_filter (arr_sq X) size) i j
                + - (pixel (uniform_filter X size) i j
                     * pixel (uniform_filter X size) i j)
                + variance X)%R = 0%R).
  { assert (Em : pixel (uniform_filter X size) i j = 0%R) by lra.
    assert (Eq : pixel (uniform_filter (arr_sq X) size) i j = 0%R) by lra.
    rewrite Hvar, Em, Eq. lra. }
  split; [|by apply Hz].
  rewrite (lee_divisor_Finite X size i j
    (lookup2_concat_nonempty _ _ _ _ HX)), HX.
  cbn [fmap option_fmap option_map]. by rewrite Hr.
Qed.

Lemma lee_filter_zero_image_is_nan_witness :
  lookup2 (lee_divisor [[Finite 0; Finite 0]; [Finite 0; Finite 0]] 7) 1 1
    = Some (Finite 0) ∧
  lookup2 (lee_filter [[Finite 0; Finite 0]; [Finite 0; Finite 0]] 7) 1 1
    = Some NaN.
Proof.
  apply (lee_filter_zero_image_is_nan _ 2 2 7 1 1).
  - repeat constructor; eexists; (split; [reflexivity | lra]).
  - split; [reflexivity|].
    intros [|[|i]] Hi; [reflexivity | reflexivity | lia].
  - lia.
  - lia.
Defined.

(** ** Null values inside the filter *)

Lemma fadd_NaN_r (a : value) : fadd a NaN = NaN.
Proof. by destruct a. Qed.

Lemma nsum_NaN (l : list value) : NaN ∈ l → nsum l = NaN.
Proof.
  induction l as [|v l IH]; [by intros ?%not_elem_of_nil|].
  intros [<-|Hin]%elem_of_cons.
  - reflexivity.
  - change (nsum (v :: l)) with (fadd v (nsum l)).
    rewrite (IH Hin). apply fadd_NaN_r.
Qed.

(** One NaN pixel makes the overall variance NaN. *)
Lemma variance_NaN (img : array2 value) :
  NaN ∈ concat img → variance img = NaN.
Proof.
  intros Hin. unfold variance.
  rewrite (nsum_NaN _ Hin).
  cbn [ndiv nsub nmul nof_nat value_arith].
  change (fdiv NaN (Finite (INR (length (concat img))))) with NaN.
  rewrite nsum_NaN; [done|].
  apply list_elem_of_fmap. exists NaN. split; [|exact Hin].
  reflexivity.
Qed.

(** X4.  [lee_filter] does not handle null values: one NaN pixel anywhere in
    the image makes every output pixel NaN. *)
Theorem lee_filter_one_nan_spoils_all (img : array2 value) (size i j : nat) :
  NaN ∈ concat img →
  lookup2 (lee_filter img size) i j = (λ _, NaN) <$> lookup2 img i j.
Proof.
  intros Hin. rewrite lookup2_lee_filter.
  destruct (lookup2 img i j) as [x|]; [|done].
  cbn [fmap option_fmap option_map]. f_equal.
  unfold lee_blend_pixel. rewrite (variance_NaN img Hin).
  cbn [ndiv nsub nmul nadd value_arith].
  rewrite fadd_NaN_r.
  set (v := fsub _ _). set (m := pixel (uniform_filter img size) i j).
  replace (fdiv v NaN) with NaN by (by destruct v).
  by rewrite fadd_NaN_r.
Qed.

Lemma lee_filter_one_nan_spoils_all_witness :
  lookup2 (lee_filter [[Finite 1; Finite 2]; [NaN; Finite 4]] 7) 0 0
  = (λ _, NaN) <$> lookup2 [[Finite 1; Finite 2]; [NaN; Finite 4]] 0 0.
Proof.
  apply lee_filter_one_nan_spoils_all.
  simpl. apply list_elem_of_further, list_elem_of_further, list_elem_of_here.
Defined.



(** ** The cells on the dataset *)

(** X6.  The speckle-filtering cell fails when a band is missing, and where
    it succeeds it writes [filtered_vv] and [filtered_vh] and leaves every
    other variable of the dataset as it was. *)
Theorem speckle_cell_missing_band_and_frame (data : Dataset) :
  (data !! "vv" = None ∨ data !! "vh" = None → speckle_cell data = None) ∧
  (∀ data', speckle_cell data = Some data' →
     is_Some (data' !! "filtered_vv") ∧ is_Some (data' !! "filtered_vh") ∧
     ∀ k, k ≠ "filtered_vv" → k ≠ "filtered_vh" → data' !! k = data !! k).
Proof.
  rewrite speckle_cell_bands. split.
  - intros [Hvv|Hvh].
    + by rewrite Hvv.
    + rewrite Hvh. by destruct (data !! "vv").
  - intros data' Hcell.
    destruct (data !! "vv") as [vv|]; simpl in Hcell; [|done].
    destruct (data !! "vh") as [vh|]; simpl in Hcell; [|done].
    injection Hcell as <-. split; [|split].
    + rewrite (lookup_insert_ne _ "filtered_vh" "filtered_vv") by done.
      by rewrite lookup_insert_eq.
    + by rewrite lookup_insert_eq.
    + intros k Hvv Hvh. by rewrite !lookup_insert_ne.
Qed.

(** X7.  Running the speckle-filtering cell a second time changes nothing:
    it reads [vv] and [vh], which it does not write, and overwrites
    [filtered_vv] and [filtered_vh] with the same values. *)
Theorem speckle_cell_rerun (data data' : Dataset) :
  speckle_cell data = Some data' → speckle_cell data' = Some data'.
Proof.
  rewrite !speckle_cell_bands. intros Hcell.
  destruct (data !! "vv") as [vv|] eqn:Hvv; simpl in Hcell; [|done].
  destruct (data !! "vh") as [vh|] eqn:Hvh; simpl in Hcell; [|done].
  injection Hcell as <-.
  rewrite !lookup_insert_ne by done. rewrite Hvv. simpl.
  rewrite Hvh. simpl.
  f_equal. apply map_eq. intros k.
  destruct (decide ("filtered_vh" = k)) as [<-|Hk1].
  { by rewrite !lookup_insert_eq. }
  destruct (decide ("filtered_vv" = k)) as [<-|Hk2].
  { rewrite !(lookup_insert_ne _ "filtered_vh" "filtered_vv") by done.
    by rewrite !lookup_insert_eq. }
  by rewrite !lookup_insert_ne by done.
Qed.

Lemma speckle_cell_rerun_witness :
  ∃ data',
    speckle_cell
      (<["vv" := FloatVar [[[Finite 0; Finite 1]; [NaN; Finite 0]]]]>
         {[ "vh" := FloatVar [[[Finite 2; NaN]; [Finite 1; Finite 0]]] ]})
      = Some data' ∧
    speckle_cell data' = Some data'.
Proof.
  eexists. split.
  - rewrite speckle_cell_bands, lookup_insert_eq. simpl.
    rewrite lookup_insert_ne by done. rewrite lookup_singleton_eq. simpl.
    reflexivity.
  - apply (speckle_cell_rerun
      (<["vv" := FloatVar [[[Finite 0; Finite 1]; [NaN; Finite 0]]]]>
         {[ "vh" := FloatVar [[[Finite 2; NaN]; [Finite 1; Finite 0]]] ]})).
    rewrite speckle_cell_bands, lookup_insert_eq. simpl.
    rewrite lookup_insert_ne by done. rewrite lookup_singleton_eq. simpl.
    reflexivity.
Defined.

Lemma ln_neg (x : R) : (0 < x < 1)%R → (ln x < 0)%R.
Proof. intros Hx. rewrite <- ln_1. apply ln_increasing; lra. Qed.

(** A value below 0 dB does not survive a second conversion. *)
Lemma to_db_twice_below_one (x : R) :
  (0 < x < 1)%R → to_db (to_db (Finite x)) = NaN.
Proof.
  intros Hx. rewrite to_db_positive by lra.
  pose proof (ln_neg x Hx) as Hln. pose proof ln_10_pos as H10.
  assert (Hneg : (10 * (ln x / ln 10) < 0)%R).
  { assert (ln x / ln 10 < 0)%R; [|lra].
    apply Rmult_neg_pos; [done|]. by apply Rinv_0_lt_compat. }
  unfold to_db, log10.
  rewrite decide_False by lra. rewrite decide_False by lra. reflexivity.
Qed.

Lemma db_cell_twice (data : Dataset) :
  db_cell data ≫= db_cell =
  fvv ← data !! "filtered_vv"; fvh ← data !! "filtered_vh";
  Some (<["filtered_vh" := FloatVar (db (db (values fvh)))]>
         (<["filtered_vv" := FloatVar (db (db (values fvv)))]> data)).
Proof.
  unfold db_cell.
  destruct (data !! "filtered_vv") as [fvv|]; simpl; [|done].
  rewrite lookup_insert_ne by done.
  destruct (data !! "filtered_vh") as [fvh|]; simpl; [|done].
  rewrite lookup_insert_ne by done. rewrite lookup_insert_eq. simpl.
  rewrite lookup_insert_ne by done. rewrite lookup_insert_eq. simpl.
  f_equal. apply map_eq. intros k.
  destruct (decide ("filtered_vh" = k)) as [<-|Hk1].
  { by rewrite !lookup_insert_eq. }
  destruct (decide ("filtered_vv" = k)) as [<-|Hk2].
  { rewrite !(lookup_insert_ne _ "filtered_vh" "filtered_vv") by done.
    by rewrite !lookup_insert_eq. }
  by rewrite !lookup_insert_ne by done.
Qed.

(** X8.  The dB cell is not safe to run twice: the second run converts the
    dB values again, and a pixel whose linear value is below 1 (a negative
    dB value) becomes NaN. *)
Theorem db_cell_rerun_loses_negative_db
    (data : Dataset) (fvv fvh : variable) (t i j : nat) (x : R) :
  data !! "filtered_vv" = Some fvv →
  data !! "filtered_vh" = Some fvh →
  lookup3 (values fvv) t i j = Some (Finite x) →
  (0 < x < 1)%R →
  ∃ data2,
    db_cell data ≫= db_cell = Some data2 ∧
    (data2 !! "filtered_vv" ≫= λ v, lookup3 (values v) t i j) = Some NaN.
Proof.
  intros Hvv Hvh Hx Hrange. rewrite db_cell_twice, Hvv. simpl.
  rewrite Hvh. simpl. eexists. split; [reflexivity|].
  rewrite lookup_insert_ne by done. rewrite lookup_insert_eq. simpl.
  unfold db. rewrite !lookup3_cube_map, Hx. simpl.
  by rewrite to_db_twice_below_one.
Qed.

Lemma db_cell_rerun_loses_negative_db_witness :
  ∃ data2,
    db_cell (<["filtered_vv" := FloatVar [[[Finite (1/2)]]]]>
               {[ "filtered_vh" := FloatVar [[[Finite (1/4)]]] ]})
      ≫= db_cell = Some data2 ∧
    (data2 !! "filtered_vv" ≫= λ v, lookup3 (values v) 0 0 0) = Some NaN.
Proof.
  apply (db_cell_rerun_loses_negative_db _
    (FloatVar [[[Finite (1/2)]]]) (FloatVar [[[Finite (1/4)]]]) 0 0 0 (1/2)).
  - apply lookup_insert_eq.
  - rewrite lookup_insert_ne by done. apply lookup_singleton_eq.
  - reflexivity.
  - lra.
Defined.

(** The [water] variable after the speckle, dB and classification cells. *)
Lemma classified_water_reads_vv (threshold : value) (data : Dataset) :
  classified_water threshold data =
  vv ← data !! "vv"; _ ← data !! "vh";
  Some (BoolVar (cube_map (λ v, flt v threshold)
                   (db (speckle_filter_band (values vv))))).
Proof.
  unfold classified_water. rewrite speckle_cell_bands.
  destruct (data !! "vv") as [vv|]; simpl; [|done].
  destruct (data !! "vh") as [vh|]; simpl; [|done].
  unfold db_cell.
  rewrite lookup_insert_ne by done. rewrite lookup_insert_eq. simpl.
  rewrite lookup_insert_ne by done. rewrite lookup_insert_eq. simpl.
  unfold classify_cell.
  rewrite lookup_insert_ne by done. rewrite lookup_insert_eq. simpl.
  unfold S1_water_classifier. rewrite lookup_singleton_eq. simpl.
  by rewrite lookup_insert_eq.
Qed.

Lemma to_db_NaN : to_db NaN = NaN.
Proof. reflexivity. Qed.

(** X9.  A pixel that is null in the input is classified as not water,
    whatever the threshold. *)
Theorem null_pixel_is_classified_not_water
    (threshold : value) (data : Dataset) (vv vh : variable)
    (t i j : nat) (x : value) :
  data !! "vv" = Some vv →
  data !! "vh" = Some vh →
  lookup3 (values vv) t i j = Some x →
  isfinite x = false →
  ∃ water,
    classified_water threshold data = Some (BoolVar water) ∧
    lookup3 water t i j = Some false.
Proof.
  intros Hvv Hvh Hx Hnull.
  rewrite classified_water_reads_vv, Hvv. simpl. rewrite Hvh. simpl.
  eexists. split; [reflexivity|].
  unfold db. rewrite !lookup3_cube_map.
  unfold lookup3 in Hx.
  destruct (values vv !! t) as [img|] eqn:Himg; simpl in Hx; [|done].
  rewrite (lookup3_speckle_filter_band _ img t i j Himg), Hx.
  cbn [fmap option_fmap option_map]. rewrite Hnull.
  rewrite to_db_NaN. reflexivity.
Qed.

Lemma null_pixel_is_classified_not_water_witness :
  ∃ water,
    classified_water (Finite (-15))
      (<["vv" := FloatVar [[[Finite 0; Finite 1]; [NaN; Finite 0]]]]>
         {[ "vh" := FloatVar [[[Finite 2; NaN]; [Finite 1; Finite 0]]] ]})
      = Some (BoolVar water) ∧
    lookup3 water 0 1 0 = Some false.
Proof.
  apply (null_pixel_is_classified_not_water (Finite (-15)) _
    (FloatVar [[[Finite 0; Finite 1]; [NaN; Finite 0]]])
    (FloatVar [[[Finite 2; NaN]; [Finite 1; Finite 0]]]) 0 1 0 NaN).
  - apply lookup_insert_eq.
  - rewrite lookup_insert_ne by done. apply lookup_singleton_eq.
  - reflexivity.
  - reflexivity.
Defined.

Lemma flt_threshold_mono (v : value) (thr1 thr2 : R) :
  (thr1 <= thr2)%R →
  flt v (Finite thr1) = true → flt v (Finite thr2) = true.
Proof.
  intros Hle. destruct v as [x| | |]; simpl; try done.
  rewrite !bool_decide_eq_true. lra.
Qed.

(** X10.  Raising the threshold only adds water: a pixel that is water for a
    threshold is water for every higher one. *)
Theorem S1_water_classifier_monotone
    (da : cube value) (thr1 thr2 : R) (t i j : nat) :
  (thr1 <= thr2)%R →
  ∃ w1 w2,
    S1_water_classifier da (Finite thr1) = {[ "s1_water" := BoolVar w1 ]} ∧
    S1_water_classifier da (Finite thr2) = {[ "s1_water" := BoolVar w2 ]} ∧
    (lookup3 w1 t i j = Some true → lookup3 w2 t i j = Some true).
Proof.
  intros Hle. eexists _, _. split; [reflexivity|]. split; [reflexivity|].
  rewrite !lookup3_cube_map.
  destruct (lookup3 da t i j) as [v|]; simpl; [|done].
  intros [= Hw]. f_equal. by apply (flt_threshold_mono v thr1 thr2).
Qed.

Lemma S1_water_classifier_monotone_witness :
  ∃ w1 w2,
    S1_water_classifier [[[Finite (-20); Finite (-10)]]] (Finite (-18))
      = {[ "s1_water" := BoolVar w1 ]} ∧
    S1_water_classifier [[[Finite (-20); Finite (-10)]]] (Finite (-15))
      = {[ "s1_water" := BoolVar w2 ]} ∧
    (lookup3 w1 0 0 0 = Some true → lookup3 w2 0 0 0 = Some true).
Proof.
  apply (S1_water_classifier_monotone
    [[[Finite (-20); Finite (-10)]]] (-18) (-15) 0 0 0).
  lra.
Defined.

(** ** The maximum over time, in decibels *)

Lemma to_db_zero : to_db (Finite 0) = NegInf.
Proof.
  unfold to_db, log10. rewrite decide_False by lra.
  rewrite decide_True by done. simpl. unfold scale_inf.
  rewrite decide_False by lra. by rewrite decide_True by lra.
Qed.

Lemma to_db_nonneg_not_nan (v : value) : nonneg v → isnan (to_db v) = false.
Proof.
  intros (x & -> & Hx). destruct (decide (x = 0%R)) as [->|Hne].
  - by rewrite to_db_zero.
  - by rewrite to_db_positive by lra.
Qed.

(** The conversion keeps the order of the numbers from 0 on. *)
Lemma flt_to_db (a b : value) :
  nonneg a → nonneg b → flt (to_db a) (to_db b) = flt a b.
Proof.
  intros (x & -> & Hx) (y & -> & Hy). pose proof ln_10_pos as H10.
  destruct (decide (x = 0%R)) as [->|Hx0];
    destruct (decide (y = 0%R)) as [->|Hy0].
  - rewrite to_db_zero. simpl. symmetry. apply bool_decide_eq_false. lra.
  - rewrite to_db_zero, to_db_positive by lra. simpl.
    symmetry. apply bool_decide_eq_true. lra.
  - rewrite to_db_zero, to_db_positive by lra. simpl.
    symmetry. apply bool_decide_eq_false. lra.
  - rewrite !to_db_positive by lra. simpl.
    apply bool_decide_ext. split; intros Hlt.
    + destruct (Rlt_dec x y) as [|Hge]; [done|]. exfalso.
      assert (Hle : (ln y <= ln x)%R).
      { destruct (Req_dec_T x y) as [->|Hneq]; [lra|].
        left. apply ln_increasing; lra. }
      assert (ln y / ln 10 <= ln x / ln 10)%R; [|lra].
      apply Rmult_le_compat_r; [|done]. left. by apply Rinv_0_lt_compat.
    + assert (ln x / ln 10 < ln y / ln 10)%R; [|lra].
      apply Rmult_lt_compat_r; [by apply Rinv_0_lt_compat|].
      apply ln_increasing; lra.
Qed.

Lemma fmax_nonneg (a b : value) : nonneg a → nonneg b → nonneg (fmax a b).
Proof. intros Ha Hb. unfold fmax. by destruct (flt a b). Qed.

Lemma fmax_to_db (a b : value) :
  nonneg a → nonneg b → fmax (to_db a) (to_db b) = to_db (fmax a b).
Proof.
  intros Ha Hb. unfold fmax. rewrite (flt_to_db a b Ha Hb).
  by destruct (flt a b).
Qed.

Lemma foldl_fmax_to_db (xs : list value) (x : value) :
  nonneg x → Forall nonneg xs →
  foldl fmax (to_db x) (to_db <$> xs) = to_db (foldl fmax x xs).
Proof.
  intros Hx Hxs. revert x Hx. induction Hxs as [|y xs Hy _ IH]; intros x Hx.
  - reflexivity.
  - rewrite fmap_cons. simpl. rewrite (fmax_to_db x y Hx Hy).
    apply IH. by apply fmax_nonneg.
Qed.

Lemma filter_not_nan_id (l : list value) :
  Forall (λ v, isnan v = false) l → filter (λ x, isnan x = false) l = l.
Proof.
  induction 1 as [|v l Hv _ IH]; [done|].
  rewrite filter_cons_True by done. by rewrite IH.
Qed.

(** The maximum of the dB values is the dB value of the maximum. *)
Lemma nanmax_to_db (s : list value) :
  Forall nonneg s → nanmax (to_db <$> s) = to_db (nanmax s).
Proof.
  intros Hs. unfold nanmax.
  rewrite !filter_not_nan_id.
  - destruct Hs as [|x xs Hx Hxs]; [done|].
    rewrite fmap_cons. by apply foldl_fmax_to_db.
  - eapply Forall_impl; [exact Hs|]. by intros v (x & -> & _).
  - apply Forall_fmap. eapply Forall_impl; [exact Hs|].
    intros v Hv. by apply to_db_nonneg_not_nan.
Qed.

Lemma time_series_lookup (c : cube value) (s : list value) (i j : nat) :
  Forall2 (λ img v, lookup2 img i j = Some v) c s → time_series c i j = s.
Proof.
  unfold time_series. induction 1 as [|img v c s Hv _ IH]; [done|].
  rewrite fmap_cons, IH. f_equal. by rewrite pixel_lookup2, Hv.
Qed.

Lemma Forall2_lookup2_cube_map {A B : Type} (f : A → B) (c : cube A)
    (s : list A) (i j : nat) :
  Forall2 (λ img v, lookup2 img i j = Some v) c s →
  Forall2 (λ img v, lookup2 img i j = Some v) (cube_map f c) (f <$> s).
Proof.
  unfold cube_map. induction 1 as [|img v c s Hv _ IH]; [constructor|].
  rewrite !fmap_cons. constructor; [|exact IH].
  by rewrite lookup2_arr_map, Hv.
Qed.

Lemma Forall2_head_lookup2 {A : Type} (c : cube A) (s : list A) (i j : nat) :
  Forall2 (λ img v, lookup2 img i j = Some v) c s → s ≠ [] →
  ∃ v0, (c !! 0 ≫= λ img, lookup2 img i j) = Some v0.
Proof. intros [|img v c' s' Hv _] Hne; [done|]. simpl. eauto. Qed.

(** X11.  In the maximum-backscatter notebook, the maximum over time of the dB
    band at a pixel is the dB value of the maximum of the linear values,
    for linear values that are finite and not negative (a zero gives
    [-inf], which every other value exceeds). *)
Theorem max_of_db_is_db_of_max
    (data : Dataset) (vv vh : variable) (s : list value) (i j : nat) :
  data !! "vv" = Some vv →
  data !! "vh" = Some vh →
  Forall2 (λ img v, lookup2 img i j = Some v) (values vv) s →
  s ≠ [] →
  Forall nonneg s →
  ∃ data1 vv_max vh_max,
    db_cell_max data = Some data1 ∧
    max_cell data1 = Some (vv_max, vh_max) ∧
    lookup2 vv_max i j = Some (to_db (nanmax s)).
Proof.
  intros Hvv Hvh Hs Hne Hpos.
  unfold db_cell_max. rewrite Hvv. simpl.
  rewrite lookup_insert_ne by done. rewrite Hvh. simpl.
  unfold max_cell.
  eexists _, _, _. split; [reflexivity|].
  rewrite (lookup_insert_ne _ "vh_db" "vv_db") by done.
  rewrite !lookup_insert_eq. simpl.
  split; [reflexivity|].
  pose proof (Forall2_lookup2_cube_map to_db _ _ i j Hs) as Hdb.
  change (cube_map to_db (values vv)) with (db (values vv)) in Hdb.
  rewrite lookup2_reduce_time.
  rewrite (time_series_lookup _ _ i j Hdb), (nanmax_to_db s Hpos).
  destruct (Forall2_head_lookup2 _ _ i j Hdb) as [v0 ->];
    [by destruct s | done].
Qed.

Lemma max_of_db_is_db_of_max_witness :
  ∃ data1 vv_max vh_max,
    db_cell_max
      (<["vv" := FloatVar [[[Finite 0]]; [[Finite 2]]; [[Finite 1]]]]>
         {[ "vh" := FloatVar [[[Finite 1]]; [[Finite 1]]; [[Finite 1]]] ]})
      = Some data1 ∧
    max_cell data1 = Some (vv_max, vh_max) ∧
    lookup2 vv_max 0 0 = Some (to_db (nanmax [Finite 0; Finite 2; Finite 1])).
Proof.
  apply (max_of_db_is_db_of_max _
    (FloatVar [[[Finite 0]]; [[Finite 2]]; [[Finite 1]]])
    (FloatVar [[[Finite 1]]; [[Finite 1]]; [[Finite 1]]])).
  - apply lookup_insert_eq.
  - rewrite lookup_insert_ne by done. apply lookup_singleton_eq.
  - repeat constructor.
  - discriminate.
  - repeat constructor; eexists; (split; [reflexivity | lra]).
Defined.

(** ** More on the summary over time *)

Lemma water_fraction_range (s : list bool) :
  s ≠ [] → (0 <= water_fraction s <= 1)%R.
Proof.
  intros Hs. unfold water_fraction.
  assert (Hn : (0 < INR (length s))%R).
  { apply lt_0_INR. destruct s; [done | simpl; lia]. }
  pose proof (pos_INR (count_true s)) as Hk.
  pose proof (le_INR _ _ (count_true_le_length s)) as Hkn.
  split.
  - apply Rmult_le_pos; [done|]. left. by apply Rinv_0_lt_compat.
  - apply (Rmult_le_reg_r (INR (length s))); [done|].
    replace (INR (count_true s) / INR (length s) * INR (length s))%R
      with (INR (count_true s)) by (field; lra).
    lra.
Qed.

(** The two summary values of a pixel, from the fraction of its water
    classifications. *)
Lemma summary_cell_pixel (data : Dataset) (w : cube bool) (s : list bool)
    (ws : gmap string (array2 value)) (i j : nat) :
  data !! "water" = Some (BoolVar w) →
  summary_cell data = Some ws →
  Forall2 (λ img b, lookup2 img i j = Some b) w s →
  s ≠ [] →
  (ws !! "water_percentage" ≫= λ a, lookup2 a i j)
    = Some (Finite (water_fraction s * 100)) ∧
  (ws !! "water_stdev" ≫= λ a, lookup2 a i j)
    = Some (Finite (sqrt (water_fraction s * (1 - water_fraction s)) * 100)).
Proof.
  intros Hwater Hcell Hs Hne.
  unfold summary_cell in Hcell. rewrite Hwater in Hcell. simpl in Hcell.
  injection Hcell as <-.
  rewrite lookup_insert_ne by done.
  rewrite lookup_singleton_eq, lookup_insert_eq. simpl.
  pose proof (Forall2_lookup2_cube_map of_bool w s i j Hs) as Hv.
  destruct (Forall2_head_lookup2 _ _ i j Hv) as [v0 Hv0]; [by destruct s|].
  unfold times100.
  rewrite !lookup2_arr_map, !lookup2_reduce_time, Hv0.
  rewrite (time_series_of_bool w s i j Hs).
  rewrite (mean_of_bool s Hne), (std_of_bool s Hne).
  split; reflexivity.
Qed.

(** X12.  The summary values are percentages: [water_percentage] is between 0
    and 100 and [water_stdev] between 0 and 50. *)
Theorem water_summary_bounds
    (data : Dataset) (w : cube bool) (s : list bool)
    (ws : gmap string (array2 value)) (i j : nat) :
  data !! "water" = Some (BoolVar w) →
  summary_cell data = Some ws →
  Forall2 (λ img b, lookup2 img i j = Some b) w s →
  s ≠ [] →
  ∃ pct sd : R,
    (ws !! "water_percentage" ≫= λ a, lookup2 a i j) = Some (Finite pct) ∧
    (ws !! "water_stdev" ≫= λ a, lookup2 a i j) = Some (Finite sd) ∧
    (0 <= pct <= 100)%R ∧ (0 <= sd <= 50)%R.
Proof.
  intros Hwater Hcell Hs Hne.
  destruct (summary_cell_pixel data w s ws i j Hwater Hcell Hs Hne)
    as [Hpct Hsd].
  pose proof (water_fraction_range s Hne) as Hp.
  set (p := water_fraction s) in *.
  eexists _, _. split; [exact Hpct|]. split; [exact Hsd|].
  split; [lra|].
  assert (Hq : (0 <= p * (1 - p) <= 1 / 2 * (1 / 2))%R).
  { pose proof (Rle_0_sqr (p - 1 / 2)) as Hsq. unfold Rsqr in Hsq.
    split; [apply Rmult_le_pos; lra | lra]. }
  pose proof (sqrt_pos (p * (1 - p))) as H0.
  assert (H1 : (sqrt (p * (1 - p)) <= 1 / 2)%R).
  { rewrite <- (sqrt_square (1 / 2)) by lra. apply sqrt_le_1; lra. }
  lra.
Qed.

Lemma water_summary_bounds_witness :
  ∃ pct sd : R,
    (summary_of (cube_map of_bool [[[true]]; [[false]]; [[true]]])
       !! "water_percentage" ≫= λ a, lookup2 a 0 0) = Some (Finite pct) ∧
    (summary_of (cube_map of_bool [[[true]]; [[false]]; [[true]]])
       !! "water_stdev" ≫= λ a, lookup2 a 0 0) = Some (Finite sd) ∧
    (0 <= pct <= 100)%R ∧ (0 <= sd <= 50)%R.
Proof.
  apply (water_summary_bounds
    {[ "water" := BoolVar [[[true]]; [[false]]; [[true]]] ]}
    [[[true]]; [[false]]; [[true]]] [true; false; true]).
  - apply lookup_singleton_eq.
  - unfold summary_cell. rewrite lookup_singleton_eq. reflexivity.
  - repeat constructor.
  - discriminate.
Defined.

(** X13.  [water_stdev] is zero exactly for the pixels that are water in every
    time step or in none. *)
Theorem water_stdev_zero_iff_unchanging
    (data : Dataset) (w : cube bool) (s : list bool)
    (ws : gmap string (array2 value)) (i j : nat) :
  data !! "water" = Some (BoolVar w) →
  summary_cell data = Some ws →
  Forall2 (λ img b, lookup2 img i j = Some b) w s →
  s ≠ [] →
  (ws !! "water_stdev" ≫= λ a, lookup2 a i j) = Some (Finite 0)
  ↔ count_true s = length s ∨ count_true s = 0.
Proof.
  intros Hwater Hcell Hs Hne.
  destruct (summary_cell_pixel data w s ws i j Hwater Hcell Hs Hne)
    as [_ ->].
  pose proof (water_fraction_range s Hne) as Hp.
  assert (Hn : (0 < INR (length s))%R).
  { apply lt_0_INR. destruct s; [done | simpl; lia]. }
  assert (Hfrac1 : water_fraction s = 1%R ↔ count_true s = length s).
  { unfold water_fraction. split.
    - intros Heq. apply INR_eq.
      apply (Rmult_eq_compat_r (INR (length s))) in Heq.
      replace (INR (count_true s) / INR (length s) * INR (length s))%R
        with (INR (count_true s)) in Heq by (field; lra).
      lra.
    - intros ->. field. lra. }
  assert (Hfrac0 : water_fraction s = 0%R ↔ count_true s = 0).
  { unfold water_fraction. split.
    - intros Heq. apply INR_eq.
      apply (Rmult_eq_compat_r (INR (length s))) in Heq.
      replace (INR (count_true s) / INR (length s) * INR (length s))%R
        with (INR (count_true s)) in Heq by (field; lra).
      simpl. lra.
    - intros ->. simpl. field. lra. }
  rewrite <- Hfrac1, <- Hfrac0.
  set (p := water_fraction s) in *.
  split.
  - intros [= Hsd].
    assert (Hs0 : sqrt (p * (1 - p)) = 0%R) by lra.
    apply sqrt_eq_0 in Hs0; [|nra]. nra.
  - intros [Hp1|Hp0]; do 2 f_equal.
    + rewrite Hp1. replace (1 * (1 - 1))%R with 0%R by lra.
      rewrite sqrt_0. lra.
    + rewrite Hp0. replace (0 * (1 - 0))%R with 0%R by lra.
      rewrite sqrt_0. lra.
Qed.

Lemma water_stdev_zero_iff_unchanging_witness :
  (summary_of (cube_map of_bool [[[true]]; [[true]]])
     !! "water_stdev" ≫= λ a, lookup2 a 0 0) = Some (Finite 0)
  ↔ count_true [true; true] = length [true; true]
    ∨ count_true [true; true] = 0.
Proof.
  apply (water_stdev_zero_iff_unchanging
    {[ "water" := BoolVar [[[true]]; [[true]]] ]}
    [[[true]]; [[true]]] [true; true]).
  - apply lookup_singleton_eq.
  - unfold summary_cell. rewrite lookup_singleton_eq. reflexivity.
  - repeat constructor.
  - discriminate.
Defined.

Lemma count_true_Permutation (s1 s2 : list bool) :
  s1 ≡ₚ s2 → count_true s1 = count_true s2.
Proof. intros Hp. unfold count_true. by rewrite Hp. Qed.



(** ** The pipeline as a whole *)

(** X15.  The cells from the speckle filter to the summary fail when the
    dataset lacks one of the two bands, and the summary they build where
    they succeed holds the two variables [water_percentage] and
    [water_stdev] and no other. *)
Theorem water_pipeline_needs_both_bands (threshold : value) (data : Dataset) :
  (data !! "vv" = None ∨ data !! "vh" = None →
   water_pipeline threshold data = None) ∧
  (∀ ws, water_pipeline threshold data = Some ws →
         dom ws = {[ "water_percentage"; "water_stdev" ]}).
Proof.
  rewrite water_pipeline_reads_bands. split.
  - intros [Hvv|Hvh].
    + by rewrite Hvv.
    + rewrite Hvh. by destruct (data !! "vv").
  - intros ws Hws.
    destruct (data !! "vv") as [vv|]; simpl in Hws; [|done].
    destruct (data !! "vh") as [vh|]; simpl in Hws; [|done].
    injection Hws as <-. unfold summary_of.
    rewrite dom_insert_L, dom_singleton_L. set_solver.
Qed.


(** [10 * log10 x] is NaN for NaN, for [-inf] and for the negative
    numbers, and for nothing else: zero gives [-inf]. *)
Lemma isnan_to_db (x : value) :
  isnan (to_db x) = true ↔
  x = NaN ∨ x = NegInf ∨ ∃ r, x = Finite r ∧ (r < 0)%R.
Proof.
  unfold to_db. destruct x as [r| | |]; cbn [log10].
  - destruct (decide (0 < r)%R) as [Hpos|Hpos].
    + cbn [fmul isnan]. split; [done|].
      intros [?|[?|(r' & [= <-] & Hneg)]]; [done | done | lra].
    + destruct (decide (r = 0%R)) as [->|Hnz].
      * cbn [fmul]. unfold scale_inf.
        rewrite decide_False by lra. rewrite decide_True by lra.
        cbn [isnan]. split; [done|].
        intros [?|[?|(r' & [= <-] & Hneg)]]; [done | done | lra].
      * cbn [fmul isnan]. split; [|done].
        intros _. right. right. exists r. split; [done | lra].
  - cbn [fmul]. unfold scale_inf.
    rewrite decide_False by lra. rewrite decide_True by lra.
    cbn [isnan]. split; [done|].
    by intros [?|[?|(r' & ? & _)]].
  - cbn [fmul isnan]. split; [|done]. intros _. right. by left.
  - cbn [fmul isnan]. split; [|done]. intros _. by left.
Qed.

(** X17.  After the dB cell a pixel of [filtered_vv] is null exactly where
    the filtered backscatter was null, [-inf] or a negative number: the
    logarithm of a negative number is NaN, while zero becomes [-inf] and
    stays a value. *)
Theorem filtered_db_null_iff_null_or_negative
    (data : Dataset) (fvv fvh : variable) (t i j : nat) (x : value) :
  data !! "filtered_vv" = Some fvv →
  data !! "filtered_vh" = Some fvh →
  lookup3 (values fvv) t i j = Some x →
  ∃ data' c y,
    db_cell data = Some data' ∧
    data' !! "filtered_vv" = Some (FloatVar c) ∧
    lookup3 c t i j = Some y ∧
    (isnan y = true ↔
     x = NaN ∨ x = NegInf ∨ ∃ r, x = Finite r ∧ (r < 0)%R).
Proof.
  intros Hvv Hvh Hx. unfold db_cell. rewrite Hvv. simpl.
  rewrite (lookup_insert_ne _ "filtered_vv" "filtered_vh") by done.
  rewrite Hvh. simpl.
  eexists _, _, _. split; [reflexivity|]. split.
  { rewrite (lookup_insert_ne _ "filtered_vh" "filtered_vv") by done.
    by rewrite lookup_insert_eq. }
  split.
  { unfold db. rewrite lookup3_cube_map, Hx. reflexivity. }
  apply isnan_to_db.
Qed.

Lemma filtered_db_null_iff_null_or_negative_witness :
  ∃ data' c y,
    db_cell (<["filtered_vv" := FloatVar [[[Finite (-1); Finite 0]]]]>
               {[ "filtered_vh" := FloatVar [[[Finite 1; Finite 1]]] ]})
      = Some data' ∧
    data' !! "filtered_vv" = Some (FloatVar c) ∧
    lookup3 c 0 0 0 = Some y ∧
    (isnan y = true ↔
     Finite (-1) = NaN ∨ Finite (-1) = NegInf ∨
     ∃ r, Finite (-1) = Finite r ∧ (r < 0)%R).
Proof.
  apply (filtered_db_null_iff_null_or_negative _
    (FloatVar [[[Finite (-1); Finite 0]]])
    (FloatVar [[[Finite 1; Finite 1]]]) 0 0 0 (Finite (-1))).
  - apply lookup_insert_eq.
  - rewrite lookup_insert_ne by done. apply lookup_singleton_eq.
  - reflexivity.
Defined.
